(** * B+Tree internal page: a shallow embedding of
      [src/page/b_plus_tree_internal_page.cpp] and its slot-level properties.

    The page is a header followed by a slot array living in a fixed-size
    buffer-pool frame.  Integers of the source ([int], [page_id_t]) are
    modelled as [Z]: every value the page code computes is an index or a slot
    count bounded by the number of slots of one page, far from the 32-bit
    limits; the one computation on sizes in bytes, the max size set by
    [Init], has its conversions written out.  Reading or writing a slot
    outside the frame is undefined
    behaviour in the source and is a fault ([OutOfPage]) here. *)

From Stdlib Require Import ZArith Lia.
From stdpp Require Import base option list gmap strings pretty.

Local Open Scope Z_scope.

(** ** Faults and the result monad *)

Inductive fault : Type :=
  | AssertionFailure   (* an [assert] of the source does not hold *)
  | NullPointer        (* a page pointer that is null or dangling is used *)
  | OutOfPage          (* a slot outside the frame is read or written *)
  | OutOfFuel.         (* the model's loop budget is exhausted *)

Inductive result (A : Type) : Type :=
  | Done (a : A)
  | Fault (f : fault).
Arguments Done {A} a.
Arguments Fault {A} f.

#[global] Instance result_ret : MRet result := @Done.
#[global] Instance result_bind : MBind result := λ A B f m,
  match m with
  | Done a => f a
  | Fault e => Fault e
  end.

Definition assert (c : bool) : result unit :=
  if c then Done tt else Fault AssertionFailure.

Abbreviation page_id_t := Z (only parsing).

(** Modelled from the spec: the page kind of the common header (section 3:
    LEAF or INTERNAL; [Init] names the enumeration and its internal kind),
    with the kind of a frame that holds no index page yet. *)
Inductive IndexPageType : Type := INVALID_INDEX_PAGE | LEAF_PAGE | INTERNAL_PAGE.

Definition is_leaf_type (t : IndexPageType) : bool :=
  match t with LEAF_PAGE => true | _ => false end.

Section InternalPage.

Context {KeyType : Type}.
Variable comparator : KeyType → KeyType → Z.

(** The class is only instantiated with [ValueType = page_id_t]. *)
Local Abbreviation ValueType := Z (only parsing).
Definition MappingType : Type := KeyType * ValueType.

(** ** The page: header fields and the slot array of the frame.
    The header fields are those of section 6 (the class declaration is not
    part of the sources). [array] is the whole physical slot region of the
    frame; only its first [size_] entries are live, the rest is stale
    memory. *)
Record BPlusTreeInternalPage : Type := mkPage {
  page_type_ : IndexPageType;
  size_ : Z;
  max_size_ : Z;
  parent_page_id_ : page_id_t;
  page_id_ : page_id_t;
  array : list MappingType
}.

Local Abbreviation Page := BPlusTreeInternalPage (only parsing).

(** The accessors of the common page header live in b_plus_tree_page.cpp,
    which is not part of the sources: each is modelled from the header fields
    of section 6 and reads or writes one of them. *)

(** Modelled from the spec: whether the page kind is LEAF. *)
Definition IsLeafPage (p : Page) : bool := is_leaf_type (page_type_ p).

(** Modelled from the spec: the current slot count. *)
Definition GetSize (p : Page) : Z := size_ p.

(** Modelled from the spec: the maximal slot count. *)
Definition GetMaxSize (p : Page) : Z := max_size_ p.

(** Modelled from the spec: the id of the page. *)
Definition GetPageId (p : Page) : page_id_t := page_id_ p.

(** Modelled from the spec: the id of the parent page. *)
Definition GetParentPageId (p : Page) : page_id_t := parent_page_id_ p.

(** Modelled from the spec: sets the page kind. *)
Definition SetPageType (p : Page) (t : IndexPageType) : Page :=
  mkPage t (size_ p) (max_size_ p) (parent_page_id_ p) (page_id_ p) (array p).

(** Modelled from the spec: sets the current slot count. *)
Definition SetSize (p : Page) (n : Z) : Page :=
  mkPage (page_type_ p) n (max_size_ p) (parent_page_id_ p) (page_id_ p) (array p).

(** Modelled from the spec: adds [amount] to the current slot count. *)
Definition IncreaseSize (p : Page) (amount : Z) : Page :=
  SetSize p (size_ p + amount).

(** Modelled from the spec: sets the maximal slot count. *)
Definition SetMaxSize (p : Page) (n : Z) : Page :=
  mkPage (page_type_ p) (size_ p) n (parent_page_id_ p) (page_id_ p) (array p).

(** Modelled from the spec: sets the id of the page. *)
Definition SetPageId (p : Page) (id : page_id_t) : Page :=
  mkPage (page_type_ p) (size_ p) (max_size_ p) (parent_page_id_ p) id (array p).

(** Modelled from the spec: sets the id of the parent page. *)
Definition SetParentPageId (p : Page) (id : page_id_t) : Page :=
  mkPage (page_type_ p) (size_ p) (max_size_ p) id (page_id_ p) (array p).

(** Writing the slot array of a page back after an assignment to a slot. *)
Definition set_array (p : Page) (a : list MappingType) : Page :=
  mkPage (page_type_ p) (size_ p) (max_size_ p) (parent_page_id_ p) (page_id_ p) a.

(** [array[i]] as an rvalue and as an lvalue. *)
Definition array_get (a : list MappingType) (i : Z) : result MappingType :=
  if 0 <=? i then
    match a !! Z.to_nat i with
    | Some s => Done s
    | None => Fault OutOfPage
    end
  else Fault OutOfPage.

Definition array_set (a : list MappingType) (i : Z) (s : MappingType)
  : result (list MappingType) :=
  if (0 <=? i) && (i <? Z.of_nat (length a))
  then Done (<[Z.to_nat i := s]> a)
  else Fault OutOfPage.

(** The live slots of a page. *)
Definition slots (p : Page) : list MappingType :=
  take (Z.to_nat (GetSize p)) (array p).

(** ** Init
    [PAGE_SIZE] and the three [sizeof] values are constants of the build that
    the sources do not give; they are parameters here.  The [sizeof] values
    have type [size_t], so the source computes the quotient in [size_t] and
    narrows it to [int]: both conversions are written out, [size_t] being 64
    bits wide and [int] 32 bits wide. *)
Definition to_size_t (z : Z) : Z := z mod 2 ^ 64.

Definition to_int (z : Z) : Z := (z + 2 ^ 31) mod 2 ^ 32 - 2 ^ 31.

Section Init.
Variables PAGE_SIZE sizeof_page_header sizeof_KeyType sizeof_ValueType : Z.

Definition Init (p : Page) (page_id parent_id : page_id_t) : Page :=
  let p := SetPageType p INTERNAL_PAGE in
  let p := SetSize p 1 in
  let p := SetPageId p page_id in
  let p := SetParentPageId p parent_id in
  let size :=
    to_int (to_size_t (to_size_t PAGE_SIZE - to_size_t sizeof_page_header)
            ÷ to_size_t (sizeof_KeyType + sizeof_ValueType)) in
  SetMaxSize p size.
End Init.

(** ** Accessors *)
Definition KeyAt (p : Page) (index : Z) : result KeyType :=
  assert ((0 <=? index) && (index <? GetSize p));;
  s ← array_get (array p) index;
  mret s.1.

Definition SetKeyAt (p : Page) (index : Z) (key : KeyType) : result Page :=
  assert ((0 <=? index) && (index <? GetSize p));;
  s ← array_get (array p) index;
  a ← array_set (array p) index (key, s.2);
  mret (set_array p a).

(** [for (int i = 0; i < GetSize(); ++i)]: [n] is the number of iterations
    left, [i] the loop variable. *)
Fixpoint ValueIndex_loop (n : nat) (i : Z) (p : Page) (value : ValueType)
  : result Z :=
  match n with
  | O => mret (GetSize p)
  | S n' =>
      s ← array_get (array p) i;
      if s.2 =? value then mret i
      else ValueIndex_loop n' (i + 1) p value
  end.

Definition ValueIndex (p : Page) (value : ValueType) : result Z :=
  ValueIndex_loop (Z.to_nat (GetSize p)) 0 p value.

Definition ValueAt (p : Page) (index : Z) : result ValueType :=
  assert ((0 <=? index) && (index <? GetSize p));;
  s ← array_get (array p) index;
  mret s.2.

(** ** Lookup *)

(** The [while (low < high && low + 1 != high)] loop; [fuel] bounds the
    number of iterations. *)
Fixpoint Lookup_loop (fuel : nat) (p : Page) (key : KeyType) (low high : Z)
  : result ValueType :=
  if (low <? high) && negb (low + 1 =? high) then
    match fuel with
    | O => Fault OutOfFuel
    | S fuel' =>
        let mid := low + (high - low) ÷ 2 in
        s ← array_get (array p) mid;
        if comparator key s.1 <? 0 then Lookup_loop fuel' p key low mid
        else if comparator key s.1 >? 0 then Lookup_loop fuel' p key mid high
        else mret s.2
    end
  else
    s ← array_get (array p) low;
    mret s.2.

Definition Lookup (p : Page) (key : KeyType) : result ValueType :=
  assert (GetSize p >? 1);;
  s1 ← array_get (array p) 1;
  if comparator key s1.1 <? 0 then
    s0 ← array_get (array p) 0;
    mret s0.2
  else
    sl ← array_get (array p) (GetSize p - 1);
    if comparator key sl.1 >=? 0 then mret sl.2
    else Lookup_loop (Z.to_nat (GetSize p)) p key 1 (GetSize p - 1).

(** ** Insertion *)
Definition PopulateNewRoot (p : Page) (old_value : ValueType)
    (new_key : KeyType) (new_value : ValueType) : result Page :=
  assert (GetSize p =? 1);;
  s0 ← array_get (array p) 0;
  a ← array_set (array p) 0 (s0.1, old_value);
  a ← array_set a 1 (new_key, new_value);
  mret (IncreaseSize (set_array p a) 1).

(** [for (int i = GetSize(); i > 0; --i)]: [n] is the number of iterations
    left, [i] the loop variable; the [break] ends the recursion. *)
Fixpoint InsertNodeAfter_loop (n : nat) (i : Z) (p : Page)
    (old_value : ValueType) (new_key : KeyType) (new_value : ValueType)
  : result Page :=
  match n with
  | O => mret p
  | S n' =>
      s ← array_get (array p) (i - 1);
      if s.2 =? old_value then
        a ← array_set (array p) i (new_key, new_value);
        mret (IncreaseSize (set_array p a) 1)
      else
        a ← array_set (array p) i s;
        InsertNodeAfter_loop n' (i - 1) (set_array p a) old_value new_key new_value
  end.

Definition InsertNodeAfter (p : Page) (old_value : ValueType)
    (new_key : KeyType) (new_value : ValueType) : result (Z * Page) :=
  p' ← InsertNodeAfter_loop (Z.to_nat (GetSize p)) (GetSize p) p
         old_value new_key new_value;
  mret (GetSize p', p').

(** ** Remove *)

(** [for (int i = index; i < GetSize() - 1; ++i) array[index] = array[index + 1];]
    The body of the source reads and writes through [index], not through the
    loop variable, so the loop variable does not appear in it. *)
Fixpoint Remove_loop (n : nat) (index : Z) (p : Page) : result Page :=
  match n with
  | O => mret p
  | S n' =>
      s ← array_get (array p) (index + 1);
      a ← array_set (array p) index s;
      Remove_loop n' index (set_array p a)
  end.

Definition Remove (p : Page) (index : Z) : result Page :=
  assert ((0 <=? index) && (index <? GetSize p));;
  p' ← Remove_loop (Z.to_nat (GetSize p - 1 - index)) index p;
  mret (IncreaseSize p' (-1)).

Definition RemoveAndReturnOnlyChild (p : Page) : result (ValueType * Page) :=
  let p := IncreaseSize p (-1) in
  assert (GetSize p =? 1);;
  v ← ValueAt p 0;
  mret (v, p).

(** ** The buffer pool and the pages it holds *)

Inductive bpm_event : Type :=
  | EvFetchPage (id : page_id_t)
  | EvUnpinPage (id : page_id_t) (is_dirty : bool).

(** Modelled from the spec: the buffer pool manager is an external
    collaborator (section 6: [fetch(page_id)] gives a page or null,
    [unpin(page_id, is_dirty)]; section 5: the pin count is incremented on
    fetch and decremented on unpin).  [frames] maps the id of every page the
    pool can hand out to its frame contents, [pins] holds the pin counts and
    [trace] records the calls made to the pool. A page pointer of the source
    is the key of its frame. *)
Record BufferPoolManager : Type := mkBPM {
  frames : gmap Z BPlusTreeInternalPage;
  pins : gmap Z Z;
  trace : list bpm_event
}.

Definition pin_count (bpm : BufferPoolManager) (id : page_id_t) : Z :=
  default 0 (pins bpm !! id).

(** Code that runs against the pool: a state and fault monad. *)
Definition M (A : Type) : Type :=
  BufferPoolManager → result (A * BufferPoolManager).

#[global] Instance M_ret : MRet M := λ A a bpm, Done (a, bpm).
#[global] Instance M_bind : MBind M := λ A B f m bpm,
  match m bpm with
  | Done (a, bpm') => f a bpm'
  | Fault e => Fault e
  end.

Definition lift {A} (r : result A) : M A := λ bpm,
  match r with
  | Done a => Done (a, bpm)
  | Fault e => Fault e
  end.

(** Modelled from the spec: [FetchPage] pins the page and returns a pointer
    to its frame, or null when the pool cannot provide the page. *)
Definition FetchPage (id : page_id_t) : M (option page_id_t) := λ bpm,
  match frames bpm !! id with
  | Some _ =>
      Done (Some id,
            mkBPM (frames bpm) (<[id := pin_count bpm id + 1]> (pins bpm))
                  (trace bpm ++ [EvFetchPage id]))
  | None => Done (None, mkBPM (frames bpm) (pins bpm) (trace bpm ++ [EvFetchPage id]))
  end.

(** Modelled from the spec: [UnpinPage] decrements the pin count. *)
Definition UnpinPage (id : page_id_t) (is_dirty : bool) : M unit := λ bpm,
  Done (tt, mkBPM (frames bpm) (<[id := pin_count bpm id - 1]> (pins bpm))
                  (trace bpm ++ [EvUnpinPage id is_dirty])).

(** Dereferencing a page pointer: reading the page behind it, writing it
    back, and running page code on it in place. *)
Definition deref (ptr : page_id_t) : M Page := λ bpm,
  match frames bpm !! ptr with
  | Some p => Done (p, bpm)
  | None => Fault NullPointer
  end.

Definition deref_opt (ptr : option page_id_t) : M page_id_t :=
  match ptr with
  | Some q => _ ← deref q; mret q
  | None => lift (Fault NullPointer)
  end.

Definition put (ptr : page_id_t) (p : Page) : M unit := λ bpm,
  Done (tt, mkBPM (<[ptr := p]> (frames bpm)) (pins bpm) (trace bpm)).

Definition call {A} (ptr : page_id_t) (f : Page → result A) : M A :=
  p ← deref ptr; lift (f p).

Definition update (ptr : page_id_t) (f : Page → result Page) : M unit :=
  p ← deref ptr; p' ← lift (f p); put ptr p'.

(** [MappingType *items]: a pointer into the slot array of a page. *)
Definition items_ptr : Type := Z * Z.

(** [array[i] = *items++], [n] times from [i] on: the loop body shared by
    [CopyHalfFrom] and [CopyAllFrom]. Each iteration goes through the pool's
    frames, so a source that is the destination page is read as written. *)
Fixpoint copy_items (n : nat) (this : page_id_t) (i : Z) (items : items_ptr)
  : M unit :=
  match n with
  | O => mret tt
  | S n' =>
      s ← call items.1 (λ src, array_get (array src) items.2);
      update this (λ p, a ← array_set (array p) i s; mret (set_array p a));;
      copy_items n' this (i + 1) (items.1, items.2 + 1)
  end.

(** ** Split *)
Definition CopyHalfFrom (this : page_id_t) (items : items_ptr) (size : Z)
  : M unit :=
  call this (λ p, assert (negb (IsLeafPage p) && (GetSize p =? 1)));;
  copy_items (Z.to_nat size) this 0 items;;
  update this (λ p, mret (IncreaseSize p size)).

Definition MoveHalfTo (this recipient : page_id_t) : M unit :=
  size ← call this (λ p, mret (GetSize p));
  let half := size ÷ 2 in
  CopyHalfFrom recipient (this, size - half) half;;
  update this (λ p, mret (IncreaseSize p (-1 * half))).

(** ** Merge *)
Definition CopyAllFrom (this : page_id_t) (items : items_ptr) (size : Z)
  : M unit :=
  call this (λ p, assert (GetSize p + size <? GetMaxSize p));;
  start ← call this (λ p, mret (GetSize p));
  copy_items (Z.to_nat (size - start)) this start items;;
  update this (λ p, mret (IncreaseSize p size)).

Definition MoveAllTo (this recipient : page_id_t) (index_in_parent : Z)
  : M unit :=
  size ← call this (λ p, mret (GetSize p));
  CopyAllFrom recipient (this, 1) (size - 1);;
  parent_id ← call this (λ p, mret (GetParentPageId p));
  parent ← FetchPage parent_id;
  parent ← deref_opt parent;
  update parent (λ p, Remove p index_in_parent);;
  id ← call parent (λ p, mret (GetPageId p));
  UnpinPage id true.

(** ** Redistribute *)
Definition CopyLastFrom (this : page_id_t) (pair : MappingType) : M unit :=
  call this (λ p, assert (GetSize p + 1 <? GetMaxSize p));;
  parent_id ← call this (λ p, mret (GetParentPageId p));
  parent ← FetchPage parent_id;
  parent ← deref_opt parent;
  my_id ← call this (λ p, mret (GetPageId p));
  index ← call parent (λ p, ValueIndex p my_id);
  key ← call parent (λ p, KeyAt p (index + 1));
  update this (λ p, a ← array_set (array p) (GetSize p) (key, pair.2);
                    mret (set_array p a));;
  update this (λ p, mret (IncreaseSize p 1));;
  update parent (λ p, SetKeyAt p (index + 1) pair.1);;
  id ← call parent (λ p, mret (GetPageId p));
  UnpinPage id true.

Definition MoveFirstToEndOf (this recipient : page_id_t) : M unit :=
  call this (λ p, assert (GetSize p >? 1));;
  pair ← call this (λ p, array_get (array p) 1);
  update this (λ p, s ← array_get (array p) 1;
                    a ← array_set (array p) 0 s;
                    mret (set_array p a));;
  update this (λ p, Remove p 1);;
  CopyLastFrom recipient pair.

(** [InsertNodeAfter(array[0].second, key, array[0].second)] passes references
    to slot 0, which the insertion loop never writes (it writes indices >= 1),
    so both arguments keep the value read before the call. *)
Definition CopyFirstFrom (this : page_id_t) (pair : MappingType)
    (parent_index : Z) : M unit :=
  call this (λ p, assert (GetSize p + 1 <? GetMaxSize p));;
  parent_id ← call this (λ p, mret (GetParentPageId p));
  parent ← FetchPage parent_id;
  parent ← deref_opt parent;
  key ← call parent (λ p, KeyAt p parent_index);
  update parent (λ p, SetKeyAt p parent_index pair.1);;
  update this (λ p, s0 ← array_get (array p) 0;
                    r ← InsertNodeAfter p s0.2 key s0.2;
                    mret r.2);;
  update this (λ p, s0 ← array_get (array p) 0;
                    a ← array_set (array p) 0 (s0.1, pair.2);
                    mret (set_array p a));;
  id ← call parent (λ p, mret (GetPageId p));
  UnpinPage id true.

Definition MoveLastToFrontOf (this recipient : page_id_t) (parent_index : Z)
  : M unit :=
  call this (λ p, assert (GetSize p >? 1));;
  update this (λ p, mret (IncreaseSize p (-1)));;
  pair ← call this (λ p, array_get (array p) (GetSize p));
  CopyFirstFrom recipient pair parent_index.

(** ** Debug: QueueUpChildren *)

(** The exception the source throws, which a caller can catch. *)
Inductive Exception : Type :=
  | EXCEPTION_TYPE_INDEX_all_pinned.   (* "all page are pinned while printing" *)

(** [for (int i = 0; i < GetSize(); i++)]: [n] is the number of iterations
    left, [i] the loop variable. [queue] is the caller's queue of page
    pointers; the function returns it with the exception it threw, if any:
    what was pushed and pinned before a throw stays so. *)
Fixpoint QueueUpChildren_loop (n : nat) (i : Z) (this : page_id_t)
    (queue : list page_id_t) : M (list page_id_t * option Exception) :=
  match n with
  | O => mret (queue, None)
  | S n' =>
      s ← call this (λ p, array_get (array p) i);
      page ← FetchPage s.2;
      match page with
      | None => mret (queue, Some EXCEPTION_TYPE_INDEX_all_pinned)
      | Some node => QueueUpChildren_loop n' (i + 1) this (queue ++ [node])
      end
  end.

Definition QueueUpChildren (this : page_id_t) (queue : list page_id_t)
  : M (list page_id_t * option Exception) :=
  size ← call this (λ p, mret (GetSize p));
  QueueUpChildren_loop (Z.to_nat size) 0 this queue.

(** ** ToString
    The keys are printed by their own [ToString], which the file does not
    give: it is a parameter here.  An [int] is written in decimal, which is
    [pretty] on [Z]; [os << s] appends [s] to the stream. *)
Section ToString.
Variable KeyToString : KeyType → string.

Local Infix "<<" := String.append (at level 50, left associativity).

Fixpoint ToString_loop (n : nat) (entry : Z) (first verbose : bool) (p : Page)
    (os : string) : result string :=
  match n with
  | O => mret os
  | S n' =>
      let os := if first then os else os << " " in
      s ← array_get (array p) entry;
      let os := os << KeyToString s.1 in
      let os := if verbose then os << "(" << pretty s.2 << ")" else os in
      ToString_loop n' (entry + 1) false verbose p os
  end.

Definition ToString (p : Page) (verbose : bool) : result string :=
  if GetSize p =? 0 then mret ""
  else
    let os := "" in
    let os :=
      if verbose
      then os << "[pageId: " << pretty (GetPageId p) << " parentId: "
              << pretty (GetParentPageId p) << "]<" << pretty (GetSize p)
              << "> "
      else os in
    let entry := if verbose then 0 else 1 in
    let end_ := GetSize p in
    ToString_loop (Z.to_nat (end_ - entry)) entry true verbose p os.
End ToString.

(** ** Notions used to state the properties *)

(** What the shifting loop leaves in the frame when it starts at index [i]
    and the last slot below [i] with child [old_value] is slot [j]. *)
Definition inserted_after (a : list MappingType) (i j : nat) (new : MappingType)
  : list MappingType :=
  take (S j) a ++ new :: drop (S j) (take i a) ++ drop (S i) a.

(** What [n] iterations of [array[i] = *items++] leave in a destination
    frame [a] when they start at index [i] and read the source frame [asrc]
    from index [off] on. *)
Definition copied (a asrc : list MappingType) (i off n : nat)
  : list MappingType :=
  take i a ++ take n (drop off asrc) ++ drop (i + n) a.

(** The order on keys induced by the three-way comparator. *)
Definition key_lt (a b : KeyType) : Prop := comparator a b < 0.
Definition key_le (a b : KeyType) : Prop := comparator a b ≤ 0.

(** What the page code needs of the comparator being a total order
    (section 6): swapping the arguments swaps the sign, and the order is
    transitive. *)
Record ComparatorOrder : Prop := {
  comparator_sym : ∀ a b, comparator a b < 0 ↔ 0 < comparator b a;
  comparator_le_lt_trans :
    ∀ a b c, comparator a b ≤ 0 → comparator b c < 0 → comparator a c < 0
}.

(** Keys of the live slots at indices >= 1 are strictly increasing. *)
Definition keys_increasing (p : Page) : Prop :=
  ∀ (i j : nat) (si sj : MappingType),
    (1 ≤ i < j)%nat → slots p !! i = Some si → slots p !! j = Some sj →
    key_lt si.1 sj.1.

(** The header fields that slot code never writes. *)
Definition header (p : Page) : IndexPageType * Z * Z * Z :=
  (page_type_ p, max_size_ p, parent_page_id_ p, page_id_ p).

Definition keeps_header (f : Page → result Page) : Prop :=
  ∀ p p', f p = Done p' → header p' = header p.

(** [only_frames bpm bpm']: going from [bpm] to [bpm'] made no call to the
    pool and changed no page beyond its size and slots. *)
Definition only_frames (bpm bpm' : BufferPoolManager) : Prop :=
  pins bpm' = pins bpm ∧ trace bpm' = trace bpm ∧
  ∀ id, header <$> frames bpm' !! id = header <$> frames bpm !! id.

Definition slot_code {A} (m : M A) : Prop :=
  ∀ bpm a bpm', m bpm = Done (a, bpm') → only_frames bpm bpm'.

(** Every frame holds the page whose id it is filed under. *)
Definition header_ids_consistent (bpm : BufferPoolManager) : Prop :=
  ∀ id p, frames bpm !! id = Some p → GetPageId p = id.

(** From [bpm] to [bpm'] the parent of page [this] was fetched once and
    unpinned once, in that order, with no other call to the pool, and every
    pin count is back to its value in [bpm]. *)
Definition parent_fetched_and_unpinned_once (this : page_id_t)
    (bpm bpm' : BufferPoolManager) : Prop :=
  ∃ page : Page,
    frames bpm !! this = Some page ∧
    trace bpm' = trace bpm ++ [EvFetchPage (GetParentPageId page);
                               EvUnpinPage (GetParentPageId page) true] ∧
    ∀ id, pin_count bpm' id = pin_count bpm id.

(** The pin counts after one fetch of each page of [ids], in order. *)
Definition pin_all (ids : list page_id_t) (pins : gmap Z Z) : gmap Z Z :=
  foldl (λ m id, <[id := default 0 (m !! id) + 1]> m) pins ids.

(** How often [id] occurs in [ids]. *)
Definition occurrences (id : page_id_t) (ids : list page_id_t) : Z :=
  Z.of_nat (length (filter (λ x, x = id) ids)).

(** What [ToString] writes for one slot. *)
Definition slot_text (KeyToString : KeyType → string) (verbose : bool)
    (s : MappingType) : string :=
  if verbose then KeyToString s.1 +:+ "(" +:+ pretty s.2 +:+ ")"
  else KeyToString s.1.

(** The check the error taxonomy asks of [InsertNodeAfter]: a call whose
    [old_value] is the child of no live slot is rejected by an assertion. *)
Definition absent_child_rejected (p : Page) (old_value : ValueType)
    (new_key : KeyType) (new_value : ValueType) : Prop :=
  (∀ s : MappingType, s ∈ slots p → s.2 ≠ old_value) →
  InsertNodeAfter p old_value new_key new_value = Fault AssertionFailure.

End InternalPage.

Arguments comparator_sym {KeyType comparator} _ _ _.
Arguments comparator_le_lt_trans {KeyType comparator} _ _ _ _ _ _.

(** * Concrete pages and pools *)

Arguments mkPage {KeyType} _ _ _ _ _ _.
Arguments mkBPM {KeyType} _ _ _.

(** Modelled from the spec: the comparator is external (section 6: a
    three-way comparison giving less, equal or greater under a total order);
    this is the one for integer keys used by the concrete scenarios. *)
Definition int_comparator (a b : Z) : Z :=
  if a <? b then -1 else if b <? a then 1 else 0.

(** The parent id of a page without parent. *)
Definition INVALID_PAGE_ID : Z := -1.

(** An internal page with the given live slots in a frame of [capacity]
    slots; the slots past the live ones hold [stale]. *)
Definition internal_page (id parent : Z) (max_size : Z) (capacity : nat)
    (stale : Z * Z) (live : list (Z * Z)) : BPlusTreeInternalPage :=
  mkPage INTERNAL_PAGE (Z.of_nat (length live)) max_size parent id
         (live ++ replicate (capacity - length live) stale).

(** A child page, of which only the common header matters here. *)
Definition leaf_page (id parent : Z) : @BPlusTreeInternalPage Z :=
  mkPage LEAF_PAGE 0 8 parent id [].

(** A pool holding the given pages, each filed under its own id, none of
    them pinned. *)
Definition pool_of (pages : list (@BPlusTreeInternalPage Z))
  : @BufferPoolManager Z :=
  mkBPM (list_to_map ((λ p, (GetPageId p, p)) <$> pages)) ∅ [].

(** The children ids held by the live slots of a page of the pool. *)
Definition children_of (bpm : @BufferPoolManager Z) (id : Z) : list Z :=
  match frames bpm !! id with
  | Some p => (slots p).*2
  | None => []
  end.

(** The live slots and the size of a page of the pool. *)
Definition slots_of (bpm : @BufferPoolManager Z) (id : Z) : list (Z * Z) :=
  match frames bpm !! id with
  | Some p => slots p
  | None => []
  end.

Definition size_of (bpm : @BufferPoolManager Z) (id : Z) : option Z :=
  GetSize <$> frames bpm !! id.

(** ** The scenario of section 8: a page of max size 4, the children for
    keys 10, 20, 30 inserted in order with [InsertNodeAfter].
    The frame has room for four slots of 12 bytes after a header of 24, so
    [Init] sets the max size to 4; its slot 0 already points to child 100. *)
Definition scenario_fresh : @BPlusTreeInternalPage Z :=
  Init 72 24 8 4
    (mkPage INVALID_INDEX_PAGE 0 0 0 0 [(0, 100); (0, 0); (0, 0); (0, 0)])
    1 INVALID_PAGE_ID.

Definition scenario_page : result (@BPlusTreeInternalPage Z) :=
  r ← InsertNodeAfter scenario_fresh 100 10 101;
  r ← InsertNodeAfter r.2 101 20 102;
  r ← InsertNodeAfter r.2 102 30 103;
  mret r.2.

Definition scenario_final : @BPlusTreeInternalPage Z :=
  Eval vm_compute in
    match scenario_page with Done p => p | Fault _ => scenario_fresh end.

(** A page with a gap between keys 10 and 30. *)
Definition gap_page : @BPlusTreeInternalPage Z :=
  internal_page 1 INVALID_PAGE_ID 4 4 (0, 0) [(0, 100); (10, 101); (30, 103)].

(** ** Remove on a page of four slots *)

Definition four_slot_page : @BPlusTreeInternalPage Z :=
  internal_page 1 INVALID_PAGE_ID 8 8 (0, 0)
    [(0, 100); (10, 101); (20, 102); (30, 103)].

(** ** A split *)

(** A freshly initialised page in a frame of eight slots whose bytes are
    stale. *)
Definition fresh_sibling (id parent : Z) : @BPlusTreeInternalPage Z :=
  Init 120 24 8 4
    (mkPage INVALID_INDEX_PAGE 0 0 0 0 (replicate 8 (-7, -7))) id parent.

(** Page 2 holds four children, pages 10 to 13, and is split into the
    freshly initialised page 4; page 1 is the parent of both. *)
Definition split_pool : @BufferPoolManager Z :=
  pool_of [ internal_page 1 INVALID_PAGE_ID 8 8 (-7, -7) [(0, 2)];
            internal_page 2 1 8 8 (-7, -7) [(0, 10); (10, 11); (20, 12); (30, 13)];
            fresh_sibling 4 1;
            leaf_page 10 2; leaf_page 11 2; leaf_page 12 2; leaf_page 13 2 ].

Definition split_pool_after : @BufferPoolManager Z :=
  match MoveHalfTo 2 4 split_pool with
  | Done (_, bpm') => bpm'
  | Fault _ => split_pool
  end.


(** ** A merge *)

(** Pages 2 and 3 are the two children of page 1, page 3 to the right of
    page 2 and separated from it by key 20; page 3 is merged into page 2. *)
Definition merge_pool : @BufferPoolManager Z :=
  pool_of [ internal_page 1 INVALID_PAGE_ID 8 8 (-7, -7) [(0, 2); (20, 3)];
            internal_page 2 1 8 8 (-7, -7) [(0, 10); (10, 11)];
            internal_page 3 1 8 8 (-7, -7) [(0, 12); (30, 13)];
            leaf_page 10 2; leaf_page 11 2; leaf_page 12 3; leaf_page 13 3 ].

Definition merge_pool_after : @BufferPoolManager Z :=
  match MoveAllTo 3 2 1 merge_pool with
  | Done (_, bpm') => bpm'
  | Fault _ => merge_pool
  end.

(** ** A redistribution *)

(** As above, with three children under page 3, which gives its first slot
    to the end of its left sibling, page 2. *)
Definition redistribute_pool : @BufferPoolManager Z :=
  pool_of [ internal_page 1 INVALID_PAGE_ID 8 8 (-7, -7) [(0, 2); (20, 3)];
            internal_page 2 1 8 8 (-7, -7) [(0, 10); (10, 11)];
            internal_page 3 1 8 8 (-7, -7) [(0, 12); (30, 13); (40, 14)];
            leaf_page 10 2; leaf_page 11 2;
            leaf_page 12 3; leaf_page 13 3; leaf_page 14 3 ].

Definition redistribute_pool_after : @BufferPoolManager Z :=
  match MoveFirstToEndOf 3 2 redistribute_pool with
  | Done (_, bpm') => bpm'
  | Fault _ => redistribute_pool
  end.

(** ** Pin counts on concrete runs *)

Definition copy_last_after : @BufferPoolManager Z :=
  match CopyLastFrom 2 (30, 13) redistribute_pool with
  | Done (_, bpm') => bpm'
  | Fault _ => redistribute_pool
  end.

Definition copy_first_after : @BufferPoolManager Z :=
  match CopyFirstFrom 3 (10, 11) 1 redistribute_pool with
  | Done (_, bpm') => bpm'
  | Fault _ => redistribute_pool
  end.

(** ** Further concrete pages and pools *)

(** The page filed under [id], for pools in which it is present. *)
Definition page_of (bpm : @BufferPoolManager Z) (id : Z)
  : @BPlusTreeInternalPage Z :=
  default (leaf_page id INVALID_PAGE_ID) (frames bpm !! id).

(** A page in which two live slots have the same child. *)
Definition twin_child_page : @BPlusTreeInternalPage Z :=
  internal_page 1 INVALID_PAGE_ID 4 4 (0, 0) [(0, 100); (10, 101); (20, 101)].

(** A page whose keys are not in order. *)
Definition unordered_page : @BPlusTreeInternalPage Z :=
  internal_page 1 INVALID_PAGE_ID 8 8 (0, 0)
    [(0, 100); (30, 101); (10, 102); (20, 103); (5, 104)].

(** A pool in which page 3, the second child of page 1, is missing. *)
Definition missing_child_pool : @BufferPoolManager Z :=
  pool_of [ internal_page 1 INVALID_PAGE_ID 8 8 (-7, -7) [(0, 2); (20, 3); (40, 4)];
            internal_page 2 1 8 8 (-7, -7) [(0, 10); (10, 11)];
            internal_page 4 1 8 8 (-7, -7) [(0, 14); (50, 15)] ].

(** A merge in which the page merged away, page 3, has more slots than the
    recipient, page 2. *)
Definition uneven_merge_pool : @BufferPoolManager Z :=
  pool_of [ internal_page 1 INVALID_PAGE_ID 8 8 (-7, -7) [(0, 2); (20, 3)];
            internal_page 2 1 8 8 (-7, -7) [(0, 10)];
            internal_page 3 1 8 8 (-7, -7)
              [(0, 12); (30, 13); (40, 14); (50, 15)] ].

(** Page 2 gives its last slot to the front of its right sibling, page 3. *)
Definition borrow_pool_after : @BufferPoolManager Z :=
  match MoveLastToFrontOf 2 3 1 redistribute_pool with
  | Done (_, bpm') => bpm'
  | Fault _ => redistribute_pool
  end.

(** * Properties *)

Ltac simpl_result :=
  unfold mret, mbind, result_ret, result_bind in *; cbn beta iota in *.

Section Properties.

Context {KeyType : Type}.
Variable comparator : KeyType → KeyType → Z.

(** Throughout the section the page code is used at the key type of the
    section. *)
Local Abbreviation ValueType := Z (only parsing).
Local Abbreviation Page := (@BPlusTreeInternalPage KeyType) (only parsing).
Local Abbreviation MappingType := (@MappingType KeyType) (only parsing).
Local Abbreviation BufferPoolManager := (@BufferPoolManager KeyType) (only parsing).
Local Abbreviation M := (@M KeyType) (only parsing).
Local Abbreviation FetchPage := (@FetchPage KeyType) (only parsing).
Local Abbreviation UnpinPage := (@UnpinPage KeyType) (only parsing).
Local Abbreviation deref := (@deref KeyType) (only parsing).
Local Abbreviation deref_opt := (@deref_opt KeyType) (only parsing).
Local Abbreviation copy_items := (@copy_items KeyType) (only parsing).
Local Abbreviation CopyHalfFrom := (@CopyHalfFrom KeyType) (only parsing).
Local Abbreviation MoveHalfTo := (@MoveHalfTo KeyType) (only parsing).
Local Abbreviation CopyAllFrom := (@CopyAllFrom KeyType) (only parsing).
Local Abbreviation MoveAllTo := (@MoveAllTo KeyType) (only parsing).
Local Abbreviation MoveFirstToEndOf := (@MoveFirstToEndOf KeyType) (only parsing).
Local Abbreviation MoveLastToFrontOf := (@MoveLastToFrontOf KeyType) (only parsing).

(** ** Slot array access *)

Lemma array_get_Done (a : list MappingType) (i : Z) (s : MappingType) :
  array_get a i = Done s ↔ 0 ≤ i ∧ a !! Z.to_nat i = Some s.
Proof.
  unfold array_get. destruct (Z.leb_spec 0 i) as [Hi|Hi].
  - destruct (a !! Z.to_nat i) eqn:E; split.
    + intros [= ->]. done.
    + intros [_ [= ->]]. done.
    + done.
    + intros [_ ?]. done.
  - split; [done | lia].
Qed.

Lemma array_get_lookup (a : list MappingType) (n : nat) (s : MappingType) :
  a !! n = Some s → array_get a (Z.of_nat n) = Done s.
Proof.
  intros H. apply array_get_Done. rewrite Nat2Z.id. split; [lia | done].
Qed.

Lemma array_get_at (a : list MappingType) (i : Z) (s : MappingType) :
  0 ≤ i → a !! Z.to_nat i = Some s → array_get a i = Done s.
Proof. intros. by apply array_get_Done. Qed.

Lemma array_get_not_assert (a : list MappingType) (i : Z) :
  array_get a i ≠ Fault AssertionFailure.
Proof.
  unfold array_get. destruct (0 <=? i); [|done].
  by destruct (a !! Z.to_nat i).
Qed.

Lemma array_set_Done (a : list MappingType) (i : Z) (s : MappingType) :
  0 ≤ i < Z.of_nat (length a) →
  array_set a i s = Done (<[Z.to_nat i := s]> a).
Proof.
  intros H. unfold array_set.
  destruct (Z.leb_spec 0 i); [|lia].
  destruct (Z.ltb_spec i (Z.of_nat (length a))); [done | lia].
Qed.

Lemma array_set_not_assert (a : list MappingType) (i : Z) (s : MappingType) :
  array_set a i s ≠ Fault AssertionFailure.
Proof. unfold array_set. by destruct (_ && _). Qed.

Lemma assert_Done (c : bool) : assert c = Done tt ↔ c = true.
Proof. destruct c; simpl; split; done. Qed.

Lemma assert_Fault (c : bool) (f : fault) :
  assert c = Fault f ↔ c = false ∧ f = AssertionFailure.
Proof.
  destruct c; simpl; split; try done.
  - by intros [? _].
  - by intros [= <-].
  - by intros [_ ->].
Qed.

Lemma index_check (index size : Z) :
  (0 <=? index) && (index <? size) = true ↔ 0 ≤ index < size.
Proof. rewrite andb_true_iff, Z.leb_le, Z.ltb_lt. done. Qed.

Lemma length_slots (p : Page) :
  GetSize p ≤ Z.of_nat (length (array p)) →
  length (slots p) = Z.to_nat (GetSize p).
Proof. intros H. unfold slots. rewrite length_take. lia. Qed.

Lemma slots_lookup (p : Page) (i : nat) (s : MappingType) :
  slots p !! i = Some s ↔ (Z.of_nat i < GetSize p) ∧ array p !! i = Some s.
Proof.
  unfold slots. rewrite lookup_take_Some. split; intros [? ?]; split; done || lia.
Qed.

(** ** The defensive checks *)

Lemma bind_not_assert {A B} (m : result A) (f : A → result B) :
  m ≠ Fault AssertionFailure →
  (∀ a, f a ≠ Fault AssertionFailure) →
  m ≫= f ≠ Fault AssertionFailure.
Proof. intros Hm Hf. destruct m; simpl_result; [apply Hf | congruence]. Qed.

Ltac no_assert :=
  repeat first
    [ apply array_get_not_assert
    | apply array_set_not_assert
    | apply bind_not_assert; [|intros ?]
    | discriminate ].

Lemma Lookup_loop_not_assert (fuel : nat) (p : Page) (key : KeyType) (low high : Z) :
  Lookup_loop comparator fuel p key low high ≠ Fault AssertionFailure.
Proof.
  revert low high. induction fuel as [|fuel IH]; intros low high; simpl;
    destruct (_ && _); no_assert.
  destruct (_ <? 0); [apply IH|].
  destruct (_ >? 0); [apply IH|done].
Qed.

Lemma index_assert_iff {A} (index size : Z) (k : result A) :
  k ≠ Fault AssertionFailure →
  (assert ((0 <=? index) && (index <? size));; k) = Fault AssertionFailure
  ↔ ¬ (0 ≤ index < size).
Proof.
  intros Hk. rewrite <- index_check.
  destruct ((0 <=? index) && (index <? size)); simpl; split; done.
Qed.

Lemma InsertNodeAfter_loop_not_assert (n : nat) (i : Z) (p : Page)
    (old_value : ValueType) (new_key : KeyType) (new_value : ValueType) :
  InsertNodeAfter_loop n i p old_value new_key new_value
  ≠ Fault AssertionFailure.
Proof.
  revert i p. induction n as [|n IH]; intros i p; simpl; no_assert.
  destruct (_ =? _); no_assert. apply IH.
Qed.

(** C8: the precondition violations of the index-bounded accessors, of
    [Lookup] and of [PopulateNewRoot] are caught by the assertions of the
    code, and only those: [KeyAt], [SetKeyAt] and [ValueAt] fail their check
    exactly when the index is outside [0, size); [Lookup] fails its check
    exactly when size <= 1; [PopulateNewRoot] fails its check exactly when
    size <> 1.  [InsertNodeAfter] has no check: it fails no assertion,
    whether or not a live slot has the child [old_value]. *)
Theorem precondition_checks (p : Page) (index : Z) (key : KeyType)
    (old_value : ValueType) (new_key : KeyType) (new_value : ValueType) :
  (KeyAt p index = Fault AssertionFailure ↔ ¬ (0 ≤ index < GetSize p)) ∧
  (SetKeyAt p index key = Fault AssertionFailure ↔ ¬ (0 ≤ index < GetSize p)) ∧
  (ValueAt p index = Fault AssertionFailure ↔ ¬ (0 ≤ index < GetSize p)) ∧
  (Lookup comparator p key = Fault AssertionFailure ↔ GetSize p ≤ 1) ∧
  (PopulateNewRoot p old_value new_key new_value = Fault AssertionFailure
     ↔ GetSize p ≠ 1) ∧
  InsertNodeAfter p old_value new_key new_value ≠ Fault AssertionFailure.
Proof.
  split; [|split; [|split; [|split; [|split]]]].
  - apply index_assert_iff. no_assert.
  - apply index_assert_iff. no_assert.
  - apply index_assert_iff. no_assert.
  - unfold Lookup. destruct (Z.gtb_spec (GetSize p) 1); simpl; split; try done.
    + intros Hf. exfalso. revert Hf. no_assert.
      destruct (_ <? 0); no_assert.
      destruct (_ >=? 0); [done|]. apply Lookup_loop_not_assert.
    + lia.
  - unfold PopulateNewRoot.
    destruct (Z.eqb_spec (GetSize p) 1); simpl; split; try done.
    intros Hf. exfalso. revert Hf. no_assert.
  - unfold InsertNodeAfter. no_assert.
    apply InsertNodeAfter_loop_not_assert.
Qed.

(** ** ValueIndex *)

Lemma ValueIndex_loop_found (p : Page) (value : ValueType) (n k j : nat)
    (s : MappingType) :
  (k ≤ j < k + n)%nat →
  array p !! j = Some s → s.2 = value →
  (∀ j' s', (k ≤ j' < j)%nat → array p !! j' = Some s' → s'.2 ≠ value) →
  ValueIndex_loop n (Z.of_nat k) p value = Done (Z.of_nat j).
Proof.
  revert k. induction n as [|n IH]; intros k Hk Hj Hv Hmin; [lia|].
  simpl. destruct (decide (k = j)) as [->|Hne].
  - rewrite (array_get_lookup _ _ _ Hj). simpl_result.
    rewrite Hv, Z.eqb_refl. done.
  - destruct (lookup_lt_is_Some_2 (array p) k) as [sk Hsk].
    { apply lookup_lt_Some in Hj. lia. }
    rewrite (array_get_lookup _ _ _ Hsk). simpl_result.
    destruct (Z.eqb_spec sk.2 value) as [Heq|_].
    + exfalso. apply (Hmin k sk); [lia|done..].
    + replace (Z.of_nat k + 1) with (Z.of_nat (S k)) by lia.
      apply IH; [lia|done..|].
      intros j' s' ?. apply Hmin. lia.
Qed.

Lemma ValueIndex_loop_absent (p : Page) (value : ValueType) (n k : nat) :
  (k + n ≤ length (array p))%nat →
  (∀ j s, (k ≤ j < k + n)%nat → array p !! j = Some s → s.2 ≠ value) →
  ValueIndex_loop n (Z.of_nat k) p value = Done (GetSize p).
Proof.
  revert k. induction n as [|n IH]; intros k Hlen Hno; [done|].
  simpl. destruct (lookup_lt_is_Some_2 (array p) k) as [sk Hsk]; [lia|].
  rewrite (array_get_lookup _ _ _ Hsk). simpl_result.
  destruct (Z.eqb_spec sk.2 value) as [Heq|_].
  - exfalso. apply (Hno k sk); [lia|done..].
  - replace (Z.of_nat k + 1) with (Z.of_nat (S k)) by lia.
    apply IH; [lia|]. intros j s ?. apply Hno. lia.
Qed.

(** C10: [ValueIndex] returns the smallest live index whose child equals
    [value], and the current size when no live slot has that child. *)
Theorem ValueIndex_spec (p : Page) (value : ValueType) :
  GetSize p ≤ Z.of_nat (length (array p)) →
  (∀ (i : nat) (s : MappingType),
     slots p !! i = Some s → s.2 = value →
     (∀ (j : nat) (s' : MappingType),
        (j < i)%nat → slots p !! j = Some s' → s'.2 ≠ value) →
     ValueIndex p value = Done (Z.of_nat i))
  ∧ ((∀ s : MappingType, s ∈ slots p → s.2 ≠ value) →
     ValueIndex p value = Done (GetSize p)).
Proof.
  intros Hcap. split.
  - intros i s Hi Hv Hmin. apply slots_lookup in Hi as [Hlt Hi].
    unfold ValueIndex. apply (ValueIndex_loop_found p value _ 0 i s); [lia|done..|].
    intros j' s' Hj' Hs'. apply (Hmin j' s'); [lia|].
    apply slots_lookup. split; [lia|done].
  - intros Hno. unfold ValueIndex.
    apply (ValueIndex_loop_absent p value _ 0); [lia|].
    intros j s Hj Hs. apply Hno. apply list_elem_of_lookup. exists j.
    apply slots_lookup. split; [lia|done].
Qed.

(** ** InsertNodeAfter *)

Lemma InsertNodeAfter_loop_found (d : nat) :
  ∀ (n i j : nat) (p : Page) (sj : MappingType) (old_value : ValueType)
    (new_key : KeyType) (new_value : ValueType),
  i = (S j + d)%nat → (i ≤ n)%nat → (i < length (array p))%nat →
  array p !! j = Some sj → sj.2 = old_value →
  (∀ t s, (j < t < i)%nat → array p !! t = Some s → s.2 ≠ old_value) →
  InsertNodeAfter_loop n (Z.of_nat i) p old_value new_key new_value
  = Done (IncreaseSize
            (set_array p (inserted_after (array p) i j (new_key, new_value))) 1).
Proof.
  induction d as [|d IH]; intros n i j p sj old_value new_key new_value
    Hi Hn Hlen Hj Hv Hlast.
  - destruct n as [|n]; [lia|]. simpl.
    replace (Z.of_nat i - 1) with (Z.of_nat j) by lia.
    rewrite (array_get_lookup _ _ _ Hj). simpl_result.
    rewrite Hv, Z.eqb_refl. rewrite array_set_Done by lia. simpl_result.
    do 3 f_equal. rewrite Nat2Z.id. unfold inserted_after.
    rewrite insert_take_drop by done. subst i. rewrite Nat.add_0_r.
    rewrite (drop_ge (take _ _)) by (rewrite length_take; lia). done.
  - destruct n as [|n]; [lia|]. simpl.
    destruct i as [|i']; [lia|].
    replace (Z.of_nat (S i') - 1) with (Z.of_nat i') by lia.
    destruct (lookup_lt_is_Some_2 (array p) i') as [s Hs]; [lia|].
    rewrite (array_get_lookup _ _ _ Hs). simpl_result.
    destruct (Z.eqb_spec s.2 old_value) as [Heq|_].
    { exfalso. apply (Hlast i' s); [lia|done..]. }
    rewrite array_set_Done by lia. simpl_result. rewrite Nat2Z.id.
    rewrite (IH n i' j (set_array p (<[S i':=s]> (array p))) sj); simpl;
      [|lia|lia|rewrite length_insert; lia
       |rewrite list_lookup_insert_ne by lia; done|done|].
    + unfold IncreaseSize, SetSize, set_array. simpl. do 2 f_equal.
      unfold inserted_after.
      rewrite !take_insert_ge by lia.
      rewrite drop_insert_ge by lia. rewrite Nat.sub_diag.
      destruct (lookup_lt_is_Some_2 (array p) (S i')) as [x Hx]; [lia|].
      rewrite (drop_S _ _ _ Hx). simpl.
      rewrite (take_S_r _ _ _ Hs).
      rewrite drop_app_le by (rewrite length_take; lia).
      rewrite <- !app_assoc. done.
    + intros t s' Ht. rewrite list_lookup_insert_ne by lia.
      apply Hlast. lia.
Qed.

(** C7: on a page of size [n < max_size] with exactly one slot [j] whose
    child is [after_child], [InsertNodeAfter] leaves slots [0..j] unchanged,
    places the new pair at [j+1], shifts the slots that followed right by one
    and returns the new size [n + 1]. *)
Theorem InsertNodeAfter_spec (p : Page) (after_child : ValueType)
    (new_key : KeyType) (new_value : ValueType) (j : nat) (sj : MappingType) :
  GetSize p < GetMaxSize p →
  GetMaxSize p ≤ Z.of_nat (length (array p)) →
  slots p !! j = Some sj → sj.2 = after_child →
  (∀ (i : nat) (s : MappingType),
     slots p !! i = Some s → s.2 = after_child → i = j) →
  ∃ p' : Page,
    InsertNodeAfter p after_child new_key new_value = Done (GetSize p + 1, p')
    ∧ GetSize p' = GetSize p + 1
    ∧ slots p' = take (S j) (slots p) ++ (new_key, new_value) :: drop (S j) (slots p)
    ∧ GetMaxSize p' = GetMaxSize p ∧ GetPageId p' = GetPageId p
    ∧ GetParentPageId p' = GetParentPageId p.
Proof.
  intros Hmax Hcap Hj Hv Huniq.
  apply slots_lookup in Hj as [Hjn Hj].
  set (n := Z.to_nat (GetSize p)).
  exists (IncreaseSize
            (set_array p (inserted_after (array p) n j (new_key, new_value))) 1).
  unfold InsertNodeAfter.
  replace (GetSize p) with (Z.of_nat n) at 2 by lia. fold n.
  rewrite (InsertNodeAfter_loop_found (n - S j) n n j p sj);
    [|lia|lia|lia|done|done|].
  - simpl_result. split; [done|]. split; [done|]. split; [|done].
    unfold slots at 1. simpl. unfold inserted_after.
    unfold slots. fold n. rewrite take_take, Nat.min_l by lia.
    rewrite app_comm_cons, app_assoc. apply take_app_length'.
    rewrite length_app. simpl. rewrite length_drop, !length_take.
    unfold n, GetSize in *. lia.
  - intros t s Ht Hs Hsv. assert (t = j); [|lia].
    apply (Huniq t s); [|done]. apply slots_lookup. split; [lia|done].
Qed.

(** ** Remove *)

Lemma Remove_loop_S (n : nat) (index : Z) (p : Page) :
  Remove_loop (S n) index p
  = (s ← array_get (array p) (index + 1);
     a ← array_set (array p) index s;
     Remove_loop n index (set_array p a)).
Proof. reflexivity. Qed.

(** However often the body runs, it leaves slot [index + 1] copied over slot
    [index] and nothing else changed. *)
Lemma Remove_loop_overwrite (n idx : nat) (p : Page) (s : MappingType) :
  array p !! S idx = Some s →
  Remove_loop (S n) (Z.of_nat idx) p
  = Done (set_array p (<[idx := s]> (array p))).
Proof.
  revert p. induction n as [|n IH]; intros p Hs; rewrite Remove_loop_S;
    replace (Z.of_nat idx + 1) with (Z.of_nat (S idx)) by lia;
    rewrite (array_get_lookup _ _ _ Hs); simpl_result;
    (rewrite array_set_Done by (apply lookup_lt_Some in Hs; lia));
    simpl_result; rewrite Nat2Z.id.
  - done.
  - rewrite IH; simpl.
    + unfold set_array. simpl. by rewrite list_insert_insert_eq.
    + by rewrite list_lookup_insert_ne by lia.
Qed.

Lemma Remove_last (p : Page) (index : Z) :
  0 ≤ index → index = GetSize p - 1 →
  Remove p index = Done (IncreaseSize p (-1)).
Proof.
  intros H0 ->. unfold Remove.
  replace ((0 <=? GetSize p - 1) && (GetSize p - 1 <? GetSize p)) with true
    by (symmetry; apply index_check; lia).
  simpl. replace (GetSize p - 1 - (GetSize p - 1)) with 0 by lia. done.
Qed.

Lemma Remove_inner (p : Page) (idx : nat) (s : MappingType) :
  Z.of_nat idx + 1 < GetSize p → array p !! S idx = Some s →
  Remove p (Z.of_nat idx)
  = Done (IncreaseSize (set_array p (<[idx := s]> (array p))) (-1)).
Proof.
  intros Hlt Hs. unfold Remove.
  replace ((0 <=? Z.of_nat idx) && (Z.of_nat idx <? GetSize p)) with true
    by (symmetry; apply index_check; lia).
  simpl.
  destruct (Z.to_nat (GetSize p - 1 - Z.of_nat idx)) as [|n] eqn:E; [lia|].
  by rewrite (Remove_loop_overwrite n idx p s Hs).
Qed.

(** [Remove] does delete the slot when it is one of the last two. *)
Lemma Remove_near_end (p : Page) (idx : nat) :
  GetSize p ≤ Z.of_nat (length (array p)) →
  GetSize p - 2 ≤ Z.of_nat idx < GetSize p →
  ∃ p' : Page,
    Remove p (Z.of_nat idx) = Done p'
    ∧ GetSize p' = GetSize p - 1
    ∧ slots p' = delete idx (slots p).
Proof.
  intros Hcap Hidx.
  destruct (decide (Z.of_nat idx = GetSize p - 1)) as [Hlast|Hne].
  - exists (IncreaseSize p (-1)). split; [apply Remove_last; lia|].
    split; [done|]. unfold slots. simpl. rewrite delete_take_drop.
    rewrite take_take, drop_ge by (rewrite length_take; unfold GetSize in *; lia).
    rewrite app_nil_r. f_equal. unfold GetSize in *. lia.
  - destruct (lookup_lt_is_Some_2 (array p) (S idx)) as [s Hs]; [lia|].
    exists (IncreaseSize (set_array p (<[idx := s]> (array p))) (-1)).
    split; [apply Remove_inner; [lia|done]|]. split; [done|].
    unfold slots. simpl. rewrite delete_take_drop.
    replace (Z.to_nat (size_ p + -1)) with (S idx) by (unfold GetSize in *; lia).
    replace (Z.to_nat (GetSize p)) with (S (S idx)) by lia.
    rewrite take_take, Nat.min_l by lia.
    rewrite (take_S_r (<[idx:=s]> (array p)) idx s)
      by (apply list_lookup_insert_eq; apply lookup_lt_Some in Hs; lia).
    rewrite take_insert_ge by lia. f_equal.
    rewrite (take_S_r _ _ _ Hs).
    rewrite drop_app_length'; [done|]. rewrite length_take. lia.
Qed.

(** ** Lookup *)

Section LookupCorrect.
Hypothesis order : ComparatorOrder comparator.

Lemma key_le_not_lt (a b : KeyType) :
  key_le comparator a b ↔ ¬ key_lt comparator b a.
Proof.
  unfold key_le, key_lt. rewrite (comparator_sym order b a). lia.
Qed.

Lemma key_lt_trans (a b c : KeyType) :
  key_lt comparator a b → key_lt comparator b c → key_lt comparator a c.
Proof.
  unfold key_lt. intros Hab Hbc.
  apply (comparator_le_lt_trans order a b c); [lia|done].
Qed.

Lemma midpoint_between (low high : Z) :
  low + 1 < high → low < low + (high - low) ÷ 2 < high.
Proof.
  intros H. rewrite Z.quot_div_nonneg by lia.
  pose proof (Z.div_mod (high - low) 2).
  pose proof (Z.mod_pos_bound (high - low) 2). lia.
Qed.

Lemma Lookup_loop_correct (p : Page) (key : KeyType) (fuel : nat) :
  ∀ (low high : nat) (sl sh : MappingType),
  keys_increasing comparator p →
  (1 ≤ low < high)%nat → (high - low ≤ fuel)%nat →
  slots p !! low = Some sl → slots p !! high = Some sh →
  ¬ key_lt comparator key sl.1 → key_lt comparator key sh.1 →
  ∃ (i : nat) (si : MappingType),
    (low ≤ i < high)%nat ∧ slots p !! i = Some si ∧
    Lookup_loop comparator fuel p key (Z.of_nat low) (Z.of_nat high) = Done si.2 ∧
    ¬ key_lt comparator key si.1 ∧
    ∀ (j : nat) (sj : MappingType),
      (i < j)%nat → slots p !! j = Some sj → key_lt comparator key sj.1.
Proof.
  induction fuel as [|fuel IH]; intros low high sl sh Hsorted Hlh Hfuel
    Hsl Hsh Hlow Hhigh; [lia|].
  assert (Hab : ∀ (j : nat) (sj : MappingType),
            (high ≤ j)%nat → slots p !! j = Some sj → key_lt comparator key sj.1).
  { intros j sj Hj Hsj. destruct (decide (j = high)) as [->|Hne].
    - congruence.
    - apply (key_lt_trans _ sh.1); [done|].
      apply (Hsorted high j); [lia|done..]. }
  simpl. destruct (Z.ltb_spec (Z.of_nat low) (Z.of_nat high)); [|lia].
  destruct (Z.eqb_spec (Z.of_nat low + 1) (Z.of_nat high)) as [Hadj|Hfar]; simpl.
  - exists low, sl. apply slots_lookup in Hsl as Hsl'. destruct Hsl' as [_ Hal].
    rewrite (array_get_lookup _ _ _ Hal). simpl_result.
    repeat split; [lia|lia|done..|].
    intros j sj Hj. apply Hab. lia.
  - set (mid := Z.to_nat (Z.of_nat low + (Z.of_nat high - Z.of_nat low) ÷ 2)).
    assert (Hmid : (low < mid < high)%nat).
    { pose proof (midpoint_between (Z.of_nat low) (Z.of_nat high)). lia. }
    destruct (lookup_lt_is_Some_2 (slots p) mid) as [sm Hsm].
    { apply lookup_lt_Some in Hsh. lia. }
    apply slots_lookup in Hsm as Hsm'. destruct Hsm' as [_ Ham].
    replace (Z.of_nat low + (Z.of_nat high - Z.of_nat low) ÷ 2)
      with (Z.of_nat mid) by lia.
    rewrite (array_get_lookup _ _ _ Ham). simpl_result.
    destruct (Z.ltb_spec (comparator key sm.1) 0) as [Hlt|Hge].
    + destruct (IH low mid sl sm) as (i & si & ? & ? & ? & ? & ?);
        [done|lia|lia|done..|].
      exists i, si. repeat split; [lia|lia|done..].
    + destruct (Z.gtb_spec (comparator key sm.1) 0) as [Hgt|Hle].
      * destruct (IH mid high sm sh) as (i & si & ? & ? & ? & ? & ?);
          [done|lia|lia|done|done|unfold key_lt; lia|done|].
        exists i, si. repeat split; [lia|lia|done..].
      * exists mid, sm. repeat split; [lia|lia|done|unfold key_lt; lia|].
        intros j sj Hj Hsj.
        apply (comparator_le_lt_trans order key sm.1 sj.1); [lia|].
        apply (Hsorted mid j); [lia|done..].
Qed.

(** The contract of [Lookup] on a page of size > 1 with increasing keys. *)
Lemma Lookup_correct (p : Page) (key : KeyType) :
  1 < GetSize p ≤ Z.of_nat (length (array p)) →
  keys_increasing comparator p →
  (∀ s0 s1 : MappingType,
     slots p !! 0%nat = Some s0 → slots p !! 1%nat = Some s1 →
     key_lt comparator key s1.1 → Lookup comparator p key = Done s0.2)
  ∧ (∀ sl : MappingType,
     slots p !! Z.to_nat (GetSize p - 1) = Some sl →
     key_le comparator sl.1 key → Lookup comparator p key = Done sl.2)
  ∧ (∀ s1 sl : MappingType,
     slots p !! 1%nat = Some s1 →
     slots p !! Z.to_nat (GetSize p - 1) = Some sl →
     ¬ key_lt comparator key s1.1 → ¬ key_le comparator sl.1 key →
     ∃ (i : nat) (si : MappingType),
       (1 ≤ i)%nat ∧ slots p !! i = Some si ∧
       Lookup comparator p key = Done si.2 ∧
       key_le comparator si.1 key ∧
       ∀ (j : nat) (sj : MappingType),
         (i < j)%nat → slots p !! j = Some sj → ¬ key_le comparator sj.1 key).
Proof.
  intros Hsize Hsorted.
  assert (Hgt : (GetSize p >? 1) = true) by lia.
  split; [|split].
  - intros s0 s1 H0 H1 Hlt. unfold Lookup. rewrite Hgt. simpl.
    apply slots_lookup in H0 as [_ H0]. apply slots_lookup in H1 as [_ H1].
    rewrite (array_get_at _ 1 s1) by (lia || done). simpl_result.
    unfold key_lt in Hlt. destruct (Z.ltb_spec (comparator key s1.1) 0); [|lia].
    rewrite (array_get_at _ 0 s0) by (lia || done). done.
  - intros sl Hl Hle. unfold Lookup. rewrite Hgt. simpl.
    destruct (lookup_lt_is_Some_2 (slots p) 1) as [s1 H1].
    { rewrite length_slots; lia. }
    assert (Hn1 : ¬ key_lt comparator key s1.1).
    { intros Hlt. apply key_le_not_lt in Hle. apply Hle.
      destruct (decide (Z.to_nat (GetSize p - 1) = 1%nat)) as [E|E].
      - rewrite E in Hl. congruence.
      - apply (key_lt_trans _ s1.1); [done|].
        apply (Hsorted 1%nat (Z.to_nat (GetSize p - 1))); [lia|done..]. }
    apply slots_lookup in H1 as [_ H1]. apply slots_lookup in Hl as [_ Hl].
    rewrite (array_get_at _ 1 s1) by (lia || done). simpl_result.
    unfold key_lt in Hn1. destruct (Z.ltb_spec (comparator key s1.1) 0); [lia|].
    rewrite (array_get_at _ (GetSize p - 1) sl) by (lia || done). simpl_result.
    apply key_le_not_lt in Hle. unfold key_lt in Hle.
    destruct (Z.geb_spec (comparator key sl.1) 0); [done|lia].
  - intros s1 sl H1 Hl Hn1 Hnl. unfold Lookup. rewrite Hgt. simpl.
    assert (Hlt : key_lt comparator key sl.1).
    { destruct (Z.ltb_spec (comparator key sl.1) 0) as [?|Hge]; [done|].
      exfalso. apply Hnl. apply key_le_not_lt. unfold key_lt. lia. }
    assert (Hne : Z.to_nat (GetSize p - 1) ≠ 1%nat).
    { intros E. rewrite E in Hl. congruence. }
    destruct (Lookup_loop_correct p key (Z.to_nat (GetSize p)) 1
                (Z.to_nat (GetSize p - 1)) s1 sl)
      as (i & si & Hi & Hsi & Hrun & Hsi_le & Hmax); [done|lia|lia|done..|].
    exists i, si. split; [lia|]. split; [done|]. split.
    + apply slots_lookup in H1 as [_ H1]. apply slots_lookup in Hl as [_ Hl].
      rewrite (array_get_at _ 1 s1) by (lia || done). simpl_result.
      unfold key_lt in Hn1.
      destruct (Z.ltb_spec (comparator key s1.1) 0); [lia|].
      rewrite (array_get_at _ (GetSize p - 1) sl) by (lia || done). simpl_result.
      unfold key_lt in Hlt.
      destruct (Z.geb_spec (comparator key sl.1) 0); [lia|].
      rewrite <- Hrun. f_equal. lia.
    + split; [by apply key_le_not_lt|].
      intros j sj Hj Hsj Hle. apply key_le_not_lt in Hle. apply Hle.
      by apply (Hmax j sj).
Qed.

End LookupCorrect.

(** ** Code running against the buffer pool *)

Lemma M_bind_Done {A B} (m : M A) (f : A → M B) (bpm bpm' : BufferPoolManager)
    (b : B) :
  (m ≫= f) bpm = Done (b, bpm') ↔
  ∃ a bpm1, m bpm = Done (a, bpm1) ∧ f a bpm1 = Done (b, bpm').
Proof.
  unfold mbind, M_bind. destruct (m bpm) as [[a bpm1]|e]; split.
  - intros H. by exists a, bpm1.
  - by intros (? & ? & [= <- <-] & ?).
  - done.
  - by intros (? & ? & ? & ?).
Qed.

Lemma lift_Done {A} (r : result A) (bpm bpm' : BufferPoolManager) (a : A) :
  lift r bpm = Done (a, bpm') ↔ r = Done a ∧ bpm' = bpm.
Proof.
  unfold lift. destruct r; split; try done.
  - by intros [= <- <-].
  - by intros [[= <-] ->].
  - by intros [? _].
Qed.

Lemma deref_Done (ptr : page_id_t) (bpm bpm' : BufferPoolManager) (p : Page) :
  deref ptr bpm = Done (p, bpm') ↔ frames bpm !! ptr = Some p ∧ bpm' = bpm.
Proof.
  unfold deref. destruct (frames bpm !! ptr); split; try done.
  - by intros [= <- <-].
  - by intros [[= <-] ->].
  - by intros [? _].
Qed.

Lemma call_Done {A} (ptr : page_id_t) (f : Page → result A)
    (bpm bpm' : BufferPoolManager) (a : A) :
  call ptr f bpm = Done (a, bpm') ↔
  ∃ p, frames bpm !! ptr = Some p ∧ f p = Done a ∧ bpm' = bpm.
Proof.
  unfold call. rewrite M_bind_Done. split.
  - intros (p & bpm1 & Hd & Hl). apply deref_Done in Hd as [Hp ->].
    apply lift_Done in Hl as [Hf ->]. by exists p.
  - intros (p & Hp & Hf & ->). exists p, bpm. split.
    + by apply deref_Done.
    + by apply lift_Done.
Qed.

Lemma update_Done (ptr : page_id_t) (f : Page → result Page)
    (bpm bpm' : BufferPoolManager) (u : unit) :
  update ptr f bpm = Done (u, bpm') ↔
  ∃ p p', frames bpm !! ptr = Some p ∧ f p = Done p' ∧
          bpm' = mkBPM (<[ptr := p']> (frames bpm)) (pins bpm) (trace bpm).
Proof.
  unfold update. rewrite M_bind_Done. split.
  - intros (p & bpm1 & Hd & Hl). apply deref_Done in Hd as [Hp ->].
    apply M_bind_Done in Hl as (p' & bpm2 & Hl & Hput).
    apply lift_Done in Hl as [Hf ->]. unfold put in Hput.
    injection Hput as <-. by exists p, p'.
  - intros (p & p' & Hp & Hf & ->). destruct u. exists p, bpm. split.
    + by apply deref_Done.
    + apply M_bind_Done. exists p', bpm. split; [by apply lift_Done|done].
Qed.

Lemma only_frames_refl (bpm : BufferPoolManager) : only_frames bpm bpm.
Proof. by repeat split. Qed.

Lemma only_frames_trans (b1 b2 b3 : BufferPoolManager) :
  only_frames b1 b2 → only_frames b2 b3 → only_frames b1 b3.
Proof.
  intros (? & ? & H12) (? & ? & H23). repeat split; [congruence..|].
  intros id. by rewrite H23.
Qed.

Lemma slot_code_ret {A} (a : A) : slot_code (mret a : M A).
Proof. intros bpm a' bpm' [= <- <-]. apply only_frames_refl. Qed.

Lemma slot_code_bind {A B} (m : M A) (f : A → M B) :
  slot_code m → (∀ a, slot_code (f a)) → slot_code (m ≫= f).
Proof.
  intros Hm Hf bpm b bpm' (a & bpm1 & H1 & H2)%M_bind_Done.
  eapply only_frames_trans; [by eapply Hm | by eapply Hf].
Qed.

Lemma slot_code_call {A} (ptr : page_id_t) (f : Page → result A) :
  slot_code (call ptr f).
Proof. intros bpm a bpm' (p & _ & _ & ->)%call_Done. apply only_frames_refl. Qed.

Lemma slot_code_update (ptr : page_id_t) (f : Page → result Page) :
  keeps_header f → slot_code (update ptr f).
Proof.
  intros Hf bpm [] bpm' (p & p' & Hp & Hfp & ->)%update_Done.
  repeat split. intros id. simpl. destruct (decide (ptr = id)) as [->|Hne].
  - rewrite lookup_insert_eq, Hp. simpl. f_equal. by apply Hf.
  - by rewrite lookup_insert_ne.
Qed.

Lemma keeps_header_set_array (f : Page → result (list MappingType)) :
  keeps_header (λ p : Page, a ← f p; mret (set_array p a)).
Proof.
  intros p p'. destruct (f p); simpl_result; [|done]. by intros [= <-].
Qed.

Lemma keeps_header_IncreaseSize (n : Z) :
  keeps_header (λ p : Page, mret (IncreaseSize p n)).
Proof. by intros p p' [= <-]. Qed.

Lemma slot_code_copy_items (n : nat) (this : page_id_t) (i : Z) (items : items_ptr) :
  slot_code (copy_items n this i items).
Proof.
  revert i items. induction n as [|n IH]; intros i items; simpl.
  - apply slot_code_ret.
  - apply slot_code_bind; [apply slot_code_call|]. intros s.
    apply slot_code_bind; [|intros _; apply IH].
    apply slot_code_update. apply (keeps_header_set_array (λ p : Page, array_set (array p) i s)).
Qed.



Lemma Remove_loop_header (n : nat) (index : Z) (p p' : Page) :
  Remove_loop n index p = Done p' → header p' = header p.
Proof.
  revert p. induction n as [|n IH]; intros p; simpl.
  - by intros [= <-].
  - destruct (array_get _ _) as [s|]; simpl_result; [|done].
    destruct (array_set _ _ _) as [a|]; simpl_result; [|done].
    intros H. by apply IH in H.
Qed.

Lemma keeps_header_Remove (index : Z) : keeps_header (λ p : Page, Remove p index).
Proof.
  intros p p'. unfold Remove. destruct (assert _) as [[]|]; simpl_result; [|done].
  destruct (Remove_loop _ _ _) as [p1|] eqn:E; [|done].
  intros [= <-]. by apply Remove_loop_header in E.
Qed.

Lemma keeps_header_SetKeyAt (index : Z) (key : KeyType) :
  keeps_header (λ p : Page, SetKeyAt p index key).
Proof.
  intros p p'. unfold SetKeyAt. destruct (assert _) as [[]|]; simpl_result; [|done].
  destruct (array_get _ _) as [s|]; [|done].
  destruct (array_set _ _ _) as [a|]; [|done]. by intros [= <-].
Qed.

Lemma InsertNodeAfter_loop_header (n : nat) (i : Z) (p p' : Page)
    (old_value : ValueType) (new_key : KeyType) (new_value : ValueType) :
  InsertNodeAfter_loop n i p old_value new_key new_value = Done p' →
  header p' = header p.
Proof.
  revert i p. induction n as [|n IH]; intros i p; simpl.
  - by intros [= <-].
  - destruct (array_get _ _) as [s|]; simpl_result; [|done].
    destruct (s.2 =? old_value).
    + destruct (array_set _ _ _) as [a|]; [|done]. by intros [= <-].
    + destruct (array_set _ _ _) as [a|]; [|done].
      intros H. by apply IH in H.
Qed.

Lemma slot_code_CopyAllFrom (this : page_id_t) (items : items_ptr) (size : Z) :
  slot_code (CopyAllFrom this items size).
Proof.
  unfold CopyAllFrom.
  apply slot_code_bind; [apply slot_code_call|]. intros _.
  apply slot_code_bind; [apply slot_code_call|]. intros start.
  apply slot_code_bind; [apply slot_code_copy_items|]. intros _.
  apply slot_code_update, keeps_header_IncreaseSize.
Qed.

(** ** Copying slots between pages *)

Lemma M_bind_run {A B} (m : M A) (f : A → M B) (bpm bpm1 : BufferPoolManager)
    (a : A) :
  m bpm = Done (a, bpm1) → (m ≫= f) bpm = f a bpm1.
Proof. intros H. unfold mbind, M_bind. by rewrite H. Qed.

Lemma call_run {A} (ptr : page_id_t) (f : Page → result A)
    (bpm : BufferPoolManager) (p : Page) (a : A) :
  frames bpm !! ptr = Some p → f p = Done a →
  call ptr f bpm = Done (a, bpm).
Proof. intros Hp Hf. apply call_Done. by exists p. Qed.

Lemma update_run (ptr : page_id_t) (f : Page → result Page)
    (bpm : BufferPoolManager) (p p' : Page) :
  frames bpm !! ptr = Some p → f p = Done p' →
  update ptr f bpm
  = Done (tt, mkBPM (<[ptr := p']> (frames bpm)) (pins bpm) (trace bpm)).
Proof. intros Hp Hf. apply update_Done. by exists p, p'. Qed.

Lemma set_array_id (p : Page) : set_array p (array p) = p.
Proof. by destruct p. Qed.

Lemma copy_items_run (this srcid : page_id_t) (src : Page) (n : nat) :
  ∀ (bpm : BufferPoolManager) (dst : Page) (i off : nat),
  this ≠ srcid →
  frames bpm !! srcid = Some src → frames bpm !! this = Some dst →
  (i + n ≤ length (array dst))%nat → (off + n ≤ length (array src))%nat →
  copy_items n this (Z.of_nat i) (srcid, Z.of_nat off) bpm
  = Done (tt, mkBPM (<[this := set_array dst
                                  (copied (array dst) (array src) i off n)]>
                       (frames bpm))
                    (pins bpm) (trace bpm)).
Proof.
  induction n as [|n IH]; intros bpm dst i off Hne Hsrc Hdst Hi Hoff.
  - simpl. unfold copied. rewrite Nat.add_0_r. simpl. rewrite take_drop.
    rewrite set_array_id, insert_id by done. by destruct bpm.
  - simpl.
    destruct (lookup_lt_is_Some_2 (array src) off) as [s Hs]; [lia|].
    rewrite (M_bind_run _ _ bpm bpm s)
      by (apply (call_run _ _ _ src); [done|by apply array_get_lookup]).
    erewrite (M_bind_run _ _ bpm);
      [|apply (update_run _ _ bpm dst (set_array dst (<[i := s]> (array dst))));
        [done|by rewrite array_set_Done, Nat2Z.id by lia]].
    replace (Z.of_nat i + 1) with (Z.of_nat (S i)) by lia.
    replace (Z.of_nat off + 1) with (Z.of_nat (S off)) by lia.
    rewrite (IH _ (set_array dst (<[i := s]> (array dst))) (S i) (S off));
      simpl; [|done|by rewrite lookup_insert_ne|by rewrite lookup_insert_eq
             |rewrite length_insert; lia|lia].
    rewrite insert_insert_eq. do 4 f_equal. unfold set_array, copied. simpl.
    f_equal.
    rewrite (take_S_r (<[i:=s]> (array dst)) i s)
      by (apply list_lookup_insert_eq; lia).
    rewrite take_insert_ge by lia.
    rewrite drop_insert_lt by lia.
    rewrite (drop_S _ _ _ Hs). simpl.
    rewrite <- app_assoc. simpl. by rewrite Nat.add_succ_r.
Qed.

(** What a split does, for every page and every fresh sibling: the source
    keeps its lower slots, the sibling receives the upper [size/2] slots from
    its slot 0 on, and the size of the sibling becomes [1 + size/2]. *)
Lemma MoveHalfTo_actual (this recipient : page_id_t) (bpm : BufferPoolManager)
    (src dst : Page) :
  this ≠ recipient →
  frames bpm !! this = Some src → frames bpm !! recipient = Some dst →
  IsLeafPage dst = false → GetSize dst = 1 →
  0 ≤ GetSize src ≤ Z.of_nat (length (array src)) →
  GetSize src ÷ 2 ≤ Z.of_nat (length (array dst)) →
  ∃ (bpm' : BufferPoolManager) (src' dst' : Page),
    MoveHalfTo this recipient bpm = Done (tt, bpm')
    ∧ frames bpm' !! this = Some src'
    ∧ frames bpm' !! recipient = Some dst'
    ∧ GetSize src' = GetSize src - GetSize src ÷ 2
    ∧ slots src' = take (Z.to_nat (GetSize src - GetSize src ÷ 2)) (slots src)
    ∧ GetSize dst' = 1 + GetSize src ÷ 2
    ∧ take (Z.to_nat (GetSize src ÷ 2)) (slots dst')
      = drop (Z.to_nat (GetSize src - GetSize src ÷ 2)) (slots src).
Proof.
  intros Hne Hsrc Hdst Hleaf Hfresh Hsize Hroom.
  set (n := GetSize src) in *. set (half := n ÷ 2) in *.
  assert (Hhalf : 0 ≤ half ≤ n).
  { unfold half. rewrite Z.quot_div_nonneg by lia.
    pose proof (Z.div_mod n 2). pose proof (Z.mod_pos_bound n 2). lia. }
  set (dst1 := set_array dst (copied (array dst) (array src) 0
                                (Z.to_nat (n - half)) (Z.to_nat half))).
  exists (mkBPM (<[this := IncreaseSize src (-1 * half)]>
                   (<[recipient := IncreaseSize dst1 half]> (frames bpm)))
                (pins bpm) (trace bpm)),
         (IncreaseSize src (-1 * half)), (IncreaseSize dst1 half).
  split; [|split; [|split; [|split; [|split; [|split]]]]].
  - unfold MoveHalfTo.
    rewrite (M_bind_run _ _ bpm bpm n) by (by apply (call_run _ _ _ src)).
    fold half. unfold CopyHalfFrom.
    erewrite (M_bind_run _ _ bpm).
    2:{ erewrite (M_bind_run _ _ bpm);
          [|apply (call_run _ _ bpm dst tt); [done|by rewrite Hleaf, Hfresh]].
        erewrite (M_bind_run _ _ bpm).
        2:{ pose proof (copy_items_run recipient this src (Z.to_nat half) bpm
                          dst 0 (Z.to_nat (n - half))) as Hc.
            replace (Z.of_nat (Z.to_nat (n - half))) with (n - half) in Hc by lia.
            apply Hc; [done..|lia|unfold n in *; lia]. }
        eapply update_run; [apply lookup_insert_eq|reflexivity]. }
    simpl. rewrite insert_insert_eq.
    erewrite update_run;
      [done|simpl; by rewrite lookup_insert_ne|reflexivity].
  - simpl. apply lookup_insert_eq.
  - simpl. rewrite lookup_insert_ne by done. apply lookup_insert_eq.
  - simpl. change (size_ src) with n. lia.
  - unfold slots. simpl. change (size_ src) with n. fold n.
    rewrite take_take. f_equal. lia.
  - simpl. unfold GetSize in Hfresh. rewrite Hfresh. done.
  - unfold slots. simpl. rewrite take_take, Nat.min_l
      by (unfold GetSize in Hfresh; lia).
    unfold copied. simpl. rewrite take_app_length'.
    + fold n. rewrite take_drop_commute. do 2 f_equal. lia.
    + rewrite length_take, length_drop. lia.
Qed.

(** What a merge copies when the page merged away has at most one slot more
    than the recipient: nothing; the size of the recipient still grows. *)
Lemma CopyAllFrom_copies_nothing (this : page_id_t) (items : items_ptr)
    (size : Z) (bpm : BufferPoolManager) (dst : Page) :
  frames bpm !! this = Some dst →
  GetSize dst + size < GetMaxSize dst → size ≤ GetSize dst →
  CopyAllFrom this items size bpm
  = Done (tt, mkBPM (<[this := IncreaseSize dst size]> (frames bpm))
                    (pins bpm) (trace bpm)).
Proof.
  intros Hdst Hmax Hsmall. unfold CopyAllFrom.
  erewrite (M_bind_run _ _ bpm);
    [|apply (call_run _ _ bpm dst tt); [done|]; apply assert_Done; lia].
  erewrite (M_bind_run _ _ bpm); [|by apply (call_run _ _ bpm dst)].
  replace (Z.to_nat (size - GetSize dst)) with 0%nat by lia. simpl.
  erewrite (M_bind_run _ _ bpm); [|reflexivity].
  by erewrite update_run.
Qed.

(** ** Pinning of the parent page *)

Lemma FetchPage_deref_Done (id : page_id_t) (k : page_id_t → M unit)
    (bpm bpm' : BufferPoolManager) (u : unit) :
  (parent ← FetchPage id; parent ← deref_opt parent; k parent) bpm
    = Done (u, bpm') →
  is_Some (frames bpm !! id) ∧
  k id (mkBPM (frames bpm) (<[id := pin_count bpm id + 1]> (pins bpm))
              (trace bpm ++ [EvFetchPage id])) = Done (u, bpm').
Proof.
  intros (parent & bpm1 & Hf & H)%M_bind_Done.
  apply M_bind_Done in H as (parent' & bpm2 & Hd & H).
  unfold FetchPage in Hf. destruct (frames bpm !! id) as [pg|] eqn:E.
  - injection Hf as <- <-. simpl in Hd.
    apply M_bind_Done in Hd as (pg' & bpm3 & Hd & [= <- <-]).
    apply deref_Done in Hd as [_ ->]. done.
  - injection Hf as <- <-. done.
Qed.

Lemma unpin_parent_Done (parent : page_id_t) (bpm bpm' : BufferPoolManager)
    (u : unit) :
  (id ← call parent (λ p : Page, mret (GetPageId p)); UnpinPage id true) bpm
    = Done (u, bpm') →
  ∃ pg, frames bpm !! parent = Some pg ∧
        bpm' = mkBPM (frames bpm)
                 (<[GetPageId pg := pin_count bpm (GetPageId pg) - 1]> (pins bpm))
                 (trace bpm ++ [EvUnpinPage (GetPageId pg) true]).
Proof.
  intros (id & bpm1 & (pg & Hpg & [= <-] & ->)%call_Done & H)%M_bind_Done.
  unfold UnpinPage in H. injection H as <-. by exists pg.
Qed.

(** The common shape of the three operations: slot code, then the fetch of
    the parent of [this], slot code again, then the unpin. *)
Lemma fetch_unpin_balanced (this : page_id_t) (page : Page)
    (bpm b1 b2 bpm' : BufferPoolManager) (pg : Page) :
  header_ids_consistent bpm →
  frames bpm !! this = Some page →
  only_frames bpm b1 →
  only_frames
    (mkBPM (frames b1)
       (<[GetParentPageId page := pin_count b1 (GetParentPageId page) + 1]> (pins b1))
       (trace b1 ++ [EvFetchPage (GetParentPageId page)])) b2 →
  frames b2 !! GetParentPageId page = Some pg →
  bpm' = mkBPM (frames b2)
           (<[GetPageId pg := pin_count b2 (GetPageId pg) - 1]> (pins b2))
           (trace b2 ++ [EvUnpinPage (GetPageId pg) true]) →
  parent_fetched_and_unpinned_once this bpm bpm'.
Proof.
  intros Hids Hthis (Hp1 & Ht1 & Hh1) (Hp2 & Ht2 & Hh2) Hpg ->.
  simpl in Hp2, Ht2, Hh2.
  assert (Hid : GetPageId pg = GetParentPageId page).
  { specialize (Hh2 (GetParentPageId page)). rewrite Hh1, Hpg in Hh2.
    destruct (frames bpm !! GetParentPageId page) as [pg0|] eqn:E; [|done].
    apply Hids in E. injection Hh2 as _ _ _ Hh2. unfold GetPageId in *. congruence. }
  exists page. split; [done|]. split.
  - simpl. rewrite Ht2, Ht1, Hid, <- app_assoc. done.
  - intros id. unfold pin_count. simpl. rewrite Hp2, Hp1, Hid.
    destruct (decide (GetParentPageId page = id)) as [<-|Hne].
    + rewrite !lookup_insert_eq. simpl. unfold pin_count. rewrite Hp1. lia.
    + by rewrite !lookup_insert_ne.
Qed.

Lemma keeps_header_insert_front :
  ∀ key : KeyType,
  keeps_header (λ p : Page, s0 ← array_get (array p) 0;
                            r ← InsertNodeAfter p s0.2 key s0.2;
                            mret r.2).
Proof.
  intros key p p'. destruct (array_get _ _) as [s0|]; simpl_result; [|done].
  unfold InsertNodeAfter.
  destruct (InsertNodeAfter_loop _ _ _ _ _ _) as [p1|] eqn:E; simpl_result;
    [|done].
  intros [= <-]. by apply InsertNodeAfter_loop_header in E.
Qed.

Lemma keeps_header_set_first_value (v : ValueType) :
  keeps_header (λ p : Page, s0 ← array_get (array p) 0;
                            a ← array_set (array p) 0 (s0.1, v);
                            mret (set_array p a)).
Proof.
  intros p p'. destruct (array_get _ _) as [s0|]; simpl_result; [|done].
  destruct (array_set _ _ _) as [a|]; [|done]. by intros [= <-].
Qed.

Ltac keeps_header_tac :=
  first [ apply keeps_header_Remove | apply keeps_header_SetKeyAt
        | apply keeps_header_IncreaseSize | apply keeps_header_insert_front
        | apply keeps_header_set_first_value | apply keeps_header_set_array ].

(** One step of slot code in a run [H]: split it off and record that it only
    touched the frames. *)
Ltac slot_step H a :=
  let b := fresh "b" in
  let Hs := fresh "Hstep" in
  apply M_bind_Done in H as (a & b & Hs & H);
  first [ apply slot_code_call in Hs
        | apply slot_code_CopyAllFrom in Hs
        | match type of Hs with
          | update ?ptr ?f _ = _ =>
              apply (slot_code_update ptr f ltac:(keeps_header_tac)) in Hs
          end ].

Ltac chain_frames :=
  repeat (eapply only_frames_trans; [eassumption|]); apply only_frames_refl.

Lemma only_frames_parent_id (this : page_id_t) (page page1 : Page)
    (bpm b1 : BufferPoolManager) :
  only_frames bpm b1 →
  frames bpm !! this = Some page → frames b1 !! this = Some page1 →
  GetParentPageId page1 = GetParentPageId page.
Proof.
  intros (_ & _ & Hh) Hp Hp1. specialize (Hh this). rewrite Hp, Hp1 in Hh.
  by injection Hh.
Qed.

Lemma MoveAllTo_balanced (this recipient : page_id_t) (index_in_parent : Z)
    (bpm bpm' : BufferPoolManager) (u : unit) :
  header_ids_consistent bpm →
  MoveAllTo this recipient index_in_parent bpm = Done (u, bpm') →
  parent_fetched_and_unpinned_once this bpm bpm'.
Proof.
  intros Hids H. unfold MoveAllTo in H.
  apply M_bind_Done in H as (size & b0 & (page & Hpage & _ & ->)%call_Done & H).
  slot_step H ipattern:([]).
  apply M_bind_Done in H as (pid & ? & (page1 & Hpage1 & [= <-] & ->)%call_Done & H).
  rewrite (only_frames_parent_id this page page1 bpm _ Hstep Hpage Hpage1) in H.
  apply FetchPage_deref_Done in H as [_ H].
  slot_step H ipattern:([]).
  apply unpin_parent_Done in H as (pg & Hpg & ->).
  by eapply (fetch_unpin_balanced this page bpm).
Qed.

Lemma CopyLastFrom_balanced (this : page_id_t) (pair : MappingType)
    (bpm bpm' : BufferPoolManager) (u : unit) :
  header_ids_consistent bpm →
  CopyLastFrom this pair bpm = Done (u, bpm') →
  parent_fetched_and_unpinned_once this bpm bpm'.
Proof.
  intros Hids H. unfold CopyLastFrom in H.
  apply M_bind_Done in H as ([] & b0 & (page & Hpage & _ & ->)%call_Done & H).
  apply M_bind_Done in H as (pid & ? & (page1 & Hpage1 & [= <-] & ->)%call_Done & H).
  assert (page1 = page) as -> by congruence.
  apply FetchPage_deref_Done in H as [_ H].
  slot_step H ipattern:(my_id).
  slot_step H ipattern:(index).
  slot_step H ipattern:(key).
  slot_step H ipattern:([]).
  slot_step H ipattern:([]).
  slot_step H ipattern:([]).
  apply unpin_parent_Done in H as (pg & Hpg & ->).
  apply (fetch_unpin_balanced this page bpm bpm b4 _ pg Hids Hpage
           (only_frames_refl _)); [chain_frames|done..].
Qed.

Lemma CopyFirstFrom_balanced (this : page_id_t) (pair : MappingType)
    (parent_index : Z) (bpm bpm' : BufferPoolManager) (u : unit) :
  header_ids_consistent bpm →
  CopyFirstFrom this pair parent_index bpm = Done (u, bpm') →
  parent_fetched_and_unpinned_once this bpm bpm'.
Proof.
  intros Hids H. unfold CopyFirstFrom in H.
  apply M_bind_Done in H as ([] & b0 & (page & Hpage & _ & ->)%call_Done & H).
  apply M_bind_Done in H as (pid & ? & (page1 & Hpage1 & [= <-] & ->)%call_Done & H).
  assert (page1 = page) as -> by congruence.
  apply FetchPage_deref_Done in H as [_ H].
  slot_step H ipattern:(key).
  slot_step H ipattern:([]).
  slot_step H ipattern:([]).
  slot_step H ipattern:([]).
  apply unpin_parent_Done in H as (pg & Hpg & ->).
  apply (fetch_unpin_balanced this page bpm bpm b2 _ pg Hids Hpage
           (only_frames_refl _)); [chain_frames|done..].
Qed.

(** C9: every run of [MoveAllTo], [CopyLastFrom] and [CopyFirstFrom] that
    returns has fetched the parent page exactly once and unpinned it exactly
    once, and leaves every pin count of the pool at its value before the
    call. *)
Theorem parent_pin_balanced (bpm : BufferPoolManager) :
  header_ids_consistent bpm →
  (∀ this recipient index_in_parent bpm',
     MoveAllTo this recipient index_in_parent bpm = Done (tt, bpm') →
     parent_fetched_and_unpinned_once this bpm bpm')
  ∧ (∀ this pair bpm',
     CopyLastFrom this pair bpm = Done (tt, bpm') →
     parent_fetched_and_unpinned_once this bpm bpm')
  ∧ (∀ this pair parent_index bpm',
     CopyFirstFrom this pair parent_index bpm = Done (tt, bpm') →
     parent_fetched_and_unpinned_once this bpm bpm').
Proof.
  intros Hids. split; [|split].
  - intros *. by apply MoveAllTo_balanced.
  - intros *. by apply CopyLastFrom_balanced.
  - intros *. by apply CopyFirstFrom_balanced.
Qed.

(** ** Split and the parent pointers of the children *)


(** * Further properties of the page code *)

(** ** A new root *)

(** A run of [PopulateNewRoot] on a page of size 1. *)
Lemma PopulateNewRoot_run (p : Page) (old_value : ValueType)
    (new_key : KeyType) (new_value : ValueType) (s0 : MappingType) :
  GetSize p = 1 → (2 ≤ length (array p))%nat → array p !! 0%nat = Some s0 →
  ∃ p' : Page,
    PopulateNewRoot p old_value new_key new_value = Done p'
    ∧ GetSize p' = 2
    ∧ slots p' = [(s0.1, old_value); (new_key, new_value)]
    ∧ header p' = header p.
Proof.
  intros Hsize Hcap H0. unfold PopulateNewRoot. rewrite Hsize. simpl.
  rewrite (array_get_at _ 0 s0) by (lia || done). simpl_result.
  rewrite array_set_Done by lia. simpl_result.
  rewrite array_set_Done by (rewrite length_insert; lia). simpl_result.
  eexists. split; [done|]. unfold GetSize in *. simpl.
  split; [lia|]. split; [|done]. unfold slots. simpl. rewrite Hsize. simpl.
  destruct (array p) as [|a0 [|a1 rest]]; simpl in *; [lia..|].
  by injection H0 as ->.
Qed.

(** X1: on a page of size 1 whose frame has room for two slots,
    [PopulateNewRoot] keeps the key bytes of slot 0, makes [old_value] its
    child, puts the new pair in slot 1 and leaves a page of size 2 with the
    other header fields unchanged. *)
Theorem PopulateNewRoot_spec (p : Page) (old_value : ValueType)
    (new_key : KeyType) (new_value : ValueType) (s0 : MappingType) :
  GetSize p = 1 → (2 ≤ length (array p))%nat → array p !! 0%nat = Some s0 →
  ∃ p' : Page,
    PopulateNewRoot p old_value new_key new_value = Done p'
    ∧ GetSize p' = 2
    ∧ slots p' = [(s0.1, old_value); (new_key, new_value)]
    ∧ header p' = header p.
Proof. apply PopulateNewRoot_run. Qed.

(** X2: a frame with room for two slots that is initialised with [Init] and
    populated with [PopulateNewRoot] directs, for any comparator, every key
    below [new_key] to [old_value] and every other key to [new_value]. *)
Theorem new_root_Lookup (PAGE_SIZE sizeof_page_header sizeof_KeyType
    sizeof_ValueType : Z) (frame : Page) (page_id parent_id : page_id_t)
    (old_value : ValueType) (new_key : KeyType) (new_value : ValueType) :
  (2 ≤ length (array frame))%nat →
  ∃ p' : Page,
    PopulateNewRoot
      (Init PAGE_SIZE sizeof_page_header sizeof_KeyType sizeof_ValueType
         frame page_id parent_id) old_value new_key new_value = Done p'
    ∧ GetSize p' = 2 ∧ GetPageId p' = page_id
    ∧ GetParentPageId p' = parent_id ∧ IsLeafPage p' = false
    ∧ ∀ key : KeyType,
        Lookup comparator p' key
        = Done (if comparator key new_key <? 0 then old_value else new_value).
Proof.
  intros Hcap.
  destruct (lookup_lt_is_Some_2 (array frame) 0) as [s0 H0]; [lia|].
  set (p := Init PAGE_SIZE sizeof_page_header sizeof_KeyType sizeof_ValueType
              frame page_id parent_id).
  destruct (PopulateNewRoot_run p old_value new_key new_value s0)
    as (p' & Hrun & Hsize & Hslots & Hhdr); [done..|].
  exists p'. split; [done|]. split; [done|].
  injection Hhdr as Ht _ Hpar Hid. unfold GetPageId, GetParentPageId, IsLeafPage.
  rewrite Hid, Hpar, Ht. do 3 (split; [done|]).
  intros key. unfold Lookup. rewrite Hsize. simpl.
  assert (H1' : slots p' !! 1%nat = Some (new_key, new_value)) by (by rewrite Hslots).
  assert (H0' : slots p' !! 0%nat = Some (s0.1, old_value)) by (by rewrite Hslots).
  apply slots_lookup in H1' as [_ H1']. apply slots_lookup in H0' as [_ H0'].
  rewrite (array_get_at _ 1 (new_key, new_value)) by (lia || done).
  simpl_result. simpl.
  destruct (Z.ltb_spec (comparator key new_key) 0).
  - rewrite (array_get_at _ 0 (s0.1, old_value)) by (lia || done). done.
  - rewrite (array_get_at _ (2 - 1) (new_key, new_value)) by (lia || done).
    simpl_result. simpl.
    destruct (Z.geb_spec (comparator key new_key) 0); [done|lia].
Qed.

(** ** Collapsing a root *)

(** A run of [RemoveAndReturnOnlyChild] on a page of size 2. *)
Lemma RemoveAndReturnOnlyChild_run (p : Page) (s0 : MappingType) :
  GetSize p = 2 → array p !! 0%nat = Some s0 →
  RemoveAndReturnOnlyChild p = Done (s0.2, IncreaseSize p (-1)).
Proof.
  intros Hsize H0. unfold RemoveAndReturnOnlyChild.
  change (GetSize (IncreaseSize p (-1))) with (GetSize p + -1).
  rewrite Hsize. simpl. unfold ValueAt.
  change (GetSize (IncreaseSize p (-1))) with (GetSize p + -1).
  rewrite Hsize. simpl.
  rewrite (array_get_at _ 0 s0) by (lia || done). done.
Qed.

(** X3: [RemoveAndReturnOnlyChild] fails its check exactly when the size is
    not 2; on a page of size 2 it returns the child of slot 0, not the one
    of slot 1, and leaves size 1. *)
Theorem RemoveAndReturnOnlyChild_spec (p : Page) :
  (RemoveAndReturnOnlyChild p = Fault AssertionFailure ↔ GetSize p ≠ 2)
  ∧ (∀ s0 : MappingType,
       GetSize p = 2 → array p !! 0%nat = Some s0 →
       RemoveAndReturnOnlyChild p = Done (s0.2, IncreaseSize p (-1))).
Proof.
  unfold RemoveAndReturnOnlyChild. split.
  - change (GetSize (IncreaseSize p (-1))) with (GetSize p + -1).
    destruct (Z.eqb_spec (GetSize p + -1) 1) as [E|E]; simpl.
    + split; [|lia]. intros Hf. exfalso. revert Hf. no_assert.
      unfold ValueAt.
      change (GetSize (IncreaseSize p (-1))) with (GetSize p + -1).
      rewrite E. simpl. no_assert.
    + split; [lia|done].
  - intros s0 Hsize H0. fold (RemoveAndReturnOnlyChild p).
    by apply RemoveAndReturnOnlyChild_run.
Qed.

(** X4: collapsing a root right after [PopulateNewRoot] gives back
    [old_value] and a page of size 1 whose slot 0 holds it. *)
Theorem PopulateNewRoot_RemoveAndReturnOnlyChild (p p' : Page)
    (old_value : ValueType) (new_key : KeyType) (new_value : ValueType) :
  PopulateNewRoot p old_value new_key new_value = Done p' →
  ∃ p'' : Page,
    RemoveAndReturnOnlyChild p' = Done (old_value, p'')
    ∧ GetSize p'' = 1 ∧ (slots p'').*2 = [old_value]
    ∧ header p'' = header p.
Proof.
  unfold PopulateNewRoot. intros H.
  destruct (Z.eqb_spec (GetSize p) 1) as [Hsize|]; simpl in H; [|done].
  destruct (array_get (array p) 0) as [s0|] eqn:E0; simpl_result; [|done].
  destruct (array_set (array p) 0 _) as [a|] eqn:E1; simpl_result; [|done].
  destruct (array_set a 1 _) as [a'|] eqn:E2; simpl_result; [|done].
  injection H as <-.
  unfold array_set in E1, E2.
  destruct (_ && _) eqn:B1 in E1; [|done]. injection E1 as <-.
  destruct (_ && _) eqn:B2 in E2; [|done]. injection E2 as <-.
  rewrite length_insert in B2.
  assert (Hlen : (2 ≤ length (array p))%nat) by lia.
  eexists. split.
  - apply (RemoveAndReturnOnlyChild_run _ (s0.1, old_value)).
    + unfold GetSize in *. simpl. lia.
    + simpl. rewrite list_lookup_insert_ne by lia.
      apply list_lookup_insert_eq. lia.
  - unfold GetSize in *. simpl. split; [lia|]. split; [|done].
    unfold slots. simpl. rewrite Hsize. simpl.
    destruct (array p) as [|a0 rest]; simpl in *; [lia|].
    destruct rest; simpl in *; [lia|done].
Qed.

(** ** Reading back a key that was set *)

(** X5: after [SetKeyAt index key] succeeds, [KeyAt index] gives [key], the
    keys at the other indices and all children read as before, and the size
    is unchanged. *)
Theorem SetKeyAt_KeyAt (p p' : Page) (index : Z) (key : KeyType) :
  SetKeyAt p index key = Done p' →
  KeyAt p' index = Done key
  ∧ (∀ j, j ≠ index → KeyAt p' j = KeyAt p j)
  ∧ (∀ j, ValueAt p' j = ValueAt p j)
  ∧ GetSize p' = GetSize p.
Proof.
  unfold SetKeyAt. intros H.
  destruct ((0 <=? index) && (index <? GetSize p)) eqn:Hidx; simpl in H; [|done].
  apply index_check in Hidx.
  destruct (array_get (array p) index) as [s|] eqn:Es; simpl_result; [|done].
  apply array_get_Done in Es as [_ Es].
  assert (Hlen : (Z.to_nat index < length (array p))%nat)
    by (by apply lookup_lt_Some in Es).
  rewrite array_set_Done in H by lia. simpl_result. injection H as <-.
  assert (Hget : ∀ j, array_get (<[Z.to_nat index := (key, s.2)]> (array p)) j
                 = if decide (j = index) then Done (key, s.2)
                   else array_get (array p) j).
  { intros j. unfold array_get. destruct (Z.leb_spec 0 j).
    - case_decide as Hj.
      + subst j. by rewrite list_lookup_insert_eq.
      + rewrite list_lookup_insert_ne by lia. done.
    - case_decide; [lia|done]. }
  split; [|split; [|split]]; [| | |done].
  - unfold KeyAt. simpl. unfold GetSize in Hidx.
    replace ((0 <=? index) && (index <? size_ p)) with true
      by (symmetry; by apply index_check).
    simpl. rewrite Hget. by rewrite decide_True.
  - intros j Hj. unfold KeyAt. simpl. rewrite Hget. by rewrite decide_False.
  - intros j. unfold ValueAt. simpl. rewrite Hget.
    case_decide as Hj; [|done]. subst j.
    rewrite (array_get_at _ index s) by (lia || done). done.
Qed.

(** ** InsertNodeAfter on other pages *)

Lemma InsertNodeAfter_loop_absent (i : nat) :
  ∀ (p : Page) (old_value : ValueType) (new_key : KeyType)
    (new_value : ValueType),
  (i < length (array p))%nat →
  (∀ t s, (t < i)%nat → array p !! t = Some s → s.2 ≠ old_value) →
  InsertNodeAfter_loop i (Z.of_nat i) p old_value new_key new_value
  = Done (set_array p (take 1 (array p) ++ take i (array p)
                       ++ drop (S i) (array p))).
Proof.
  induction i as [|i IH]; intros p old_value new_key new_value Hlen Hno.
  - simpl. rewrite take_drop. by rewrite set_array_id.
  - simpl InsertNodeAfter_loop.
    replace (Z.of_nat (S i) - 1) with (Z.of_nat i) by lia.
    destruct (lookup_lt_is_Some_2 (array p) i) as [s Hs]; [lia|].
    rewrite (array_get_lookup _ _ _ Hs). simpl_result.
    destruct (Z.eqb_spec s.2 old_value) as [Heq|_].
    { exfalso. apply (Hno i s); [lia|done..]. }
    rewrite array_set_Done by lia. simpl_result. rewrite Nat2Z.id.
    rewrite IH; simpl.
    + unfold set_array. simpl. do 2 f_equal.
      rewrite !take_insert_ge by lia.
      rewrite drop_insert_ge by lia. rewrite Nat.sub_diag.
      destruct (lookup_lt_is_Some_2 (array p) (S i)) as [x Hx]; [lia|].
      rewrite (drop_S _ _ _ Hx). simpl.
      rewrite (take_S_r _ _ _ Hs). by rewrite <- app_assoc.
    + rewrite length_insert. lia.
    + intros t s' Ht. rewrite list_lookup_insert_ne by lia. apply Hno. lia.
Qed.

(** X6: when no live slot has the child [old_value], [InsertNodeAfter] does
    not insert the pair and returns the size unchanged, but its loop has
    shifted every live slot one place to the right: slot 0 now appears twice
    and the last live slot is pushed out of the live range. *)
Theorem InsertNodeAfter_absent (p : Page) (old_value : ValueType)
    (new_key : KeyType) (new_value : ValueType) (s0 : MappingType) :
  0 < GetSize p < Z.of_nat (length (array p)) →
  array p !! 0%nat = Some s0 →
  (∀ s : MappingType, s ∈ slots p → s.2 ≠ old_value) →
  ∃ p' : Page,
    InsertNodeAfter p old_value new_key new_value = Done (GetSize p, p')
    ∧ GetSize p' = GetSize p
    ∧ slots p' = s0 :: take (Z.to_nat (GetSize p) - 1) (slots p)
    ∧ header p' = header p.
Proof.
  intros Hsize H0 Hno. set (n := Z.to_nat (GetSize p)).
  exists (set_array p (take 1 (array p) ++ take n (array p)
                       ++ drop (S n) (array p))).
  unfold InsertNodeAfter.
  replace (GetSize p) with (Z.of_nat n) at 2 by lia. fold n.
  rewrite InsertNodeAfter_loop_absent; [|lia|].
  - simpl_result. split; [done|]. split; [done|]. split; [|done].
    unfold slots. simpl. fold n. change (size_ p) with (GetSize p). fold n.
    rewrite take_take, Nat.min_l by lia.
    destruct (array p) as [|a0 rest] eqn:Ea; [done|].
    injection H0 as ->.
    assert (Hn : (1 ≤ n ≤ length rest)%nat) by (simpl in Hsize; lia).
    clearbody n. destruct n as [|m]; [lia|].
    change (take 1 (s0 :: rest)) with [s0]. simpl take at 1. f_equal.
    replace (S m - 1)%nat with m by lia.
    rewrite app_comm_cons.
    rewrite take_app_le by (simpl; rewrite length_take; lia).
    change (s0 :: take m rest) with (take (S m) (s0 :: rest)).
    rewrite take_take. f_equal. lia.
  - intros t s Ht Hs. apply Hno. apply list_elem_of_lookup. exists t.
    apply slots_lookup. split; [lia|done].
Qed.

(** The insertion goes after the last live slot that has the child. *)
Lemma InsertNodeAfter_after_last (p : Page) (after_child : ValueType)
    (new_key : KeyType) (new_value : ValueType) (j : nat) (sj : MappingType) :
  GetSize p < Z.of_nat (length (array p)) →
  slots p !! j = Some sj → sj.2 = after_child →
  (∀ (i : nat) (s : MappingType),
     (j < i)%nat → slots p !! i = Some s → s.2 ≠ after_child) →
  ∃ p' : Page,
    InsertNodeAfter p after_child new_key new_value = Done (GetSize p + 1, p')
    ∧ GetSize p' = GetSize p + 1
    ∧ slots p' = take (S j) (slots p) ++ (new_key, new_value) :: drop (S j) (slots p)
    ∧ header p' = header p
    ∧ length (array p') = length (array p).
Proof.
  intros Hcap Hj Hv Hlast.
  apply slots_lookup in Hj as [Hjn Hj].
  set (n := Z.to_nat (GetSize p)).
  exists (IncreaseSize
            (set_array p (inserted_after (array p) n j (new_key, new_value))) 1).
  unfold InsertNodeAfter.
  replace (GetSize p) with (Z.of_nat n) at 2 by lia. fold n.
  rewrite (InsertNodeAfter_loop_found (n - S j) n n j p sj);
    [|lia|lia|lia|done|done|].
  - simpl_result. split; [done|]. split; [done|]. split; [|split; [done|]].
    + unfold slots at 1. simpl. unfold inserted_after.
      unfold slots. fold n. rewrite take_take, Nat.min_l by lia.
      rewrite app_comm_cons, app_assoc. apply take_app_length'.
      rewrite length_app. simpl. rewrite length_drop, !length_take.
      unfold n, GetSize in *. lia.
    + simpl. unfold inserted_after. rewrite length_app. simpl.
      rewrite length_app, !length_drop, !length_take. lia.
  - intros t s Ht Hs. apply (Hlast t s); [lia|].
    apply slots_lookup. split; [lia|done].
Qed.

(** X7: when several live slots have the child [after_child], the pair is
    inserted after the one with the largest index, the scan running from the
    end of the page. *)
Theorem InsertNodeAfter_last_match (p : Page) (after_child : ValueType)
    (new_key : KeyType) (new_value : ValueType) (j : nat) (sj : MappingType) :
  GetSize p < Z.of_nat (length (array p)) →
  slots p !! j = Some sj → sj.2 = after_child →
  (∀ (i : nat) (s : MappingType),
     (j < i)%nat → slots p !! i = Some s → s.2 ≠ after_child) →
  ∃ p' : Page,
    InsertNodeAfter p after_child new_key new_value = Done (GetSize p + 1, p')
    ∧ GetSize p' = GetSize p + 1
    ∧ slots p' = take (S j) (slots p) ++ (new_key, new_value) :: drop (S j) (slots p).
Proof.
  intros Hcap Hj Hv Hlast.
  destruct (InsertNodeAfter_after_last p after_child new_key new_value j sj)
    as (p' & ? & ? & ? & _); [done..|].
  by exists p'.
Qed.

(** ** ValueIndex and ValueAt *)

Lemma ValueIndex_loop_result (p : Page) (value : ValueType) (n : nat) :
  ∀ (k : nat) (r : Z),
  ValueIndex_loop n (Z.of_nat k) p value = Done r →
  (∃ (i : nat) (s : MappingType),
     r = Z.of_nat i ∧ (k ≤ i < k + n)%nat ∧ array p !! i = Some s ∧ s.2 = value
     ∧ ∀ (j : nat) (s' : MappingType),
         (k ≤ j < i)%nat → array p !! j = Some s' → s'.2 ≠ value)
  ∨ (r = GetSize p
     ∧ ∀ (j : nat) (s' : MappingType),
         (k ≤ j < k + n)%nat → array p !! j = Some s' → s'.2 ≠ value).
Proof.
  induction n as [|n IH]; intros k r; simpl.
  - intros [= <-]. right. split; [done|]. intros; lia.
  - destruct (array_get (array p) (Z.of_nat k)) as [s|] eqn:Es;
      simpl_result; [|done].
    apply array_get_Done in Es as [_ Es]. rewrite Nat2Z.id in Es.
    destruct (Z.eqb_spec s.2 value) as [Heq|Hne].
    + intros [= <-]. left. exists k, s. repeat split; [lia|lia|done..|].
      intros; lia.
    + replace (Z.of_nat k + 1) with (Z.of_nat (S k)) by lia. intros Hr.
      destruct (IH _ _ Hr) as [(i & s' & -> & Hi & Hsi & Hv & Hmin)|[-> Hno]].
      * left. exists i, s'. repeat split; [lia|lia|done..|].
        intros j sj Hj Hsj. destruct (decide (j = k)) as [->|].
        -- congruence.
        -- apply (Hmin j); [lia|done].
      * right. split; [done|]. intros j sj Hj Hsj.
        destruct (decide (j = k)) as [->|].
        -- congruence.
        -- apply (Hno j); [lia|done].
Qed.

(** X8: the index [ValueIndex] returns is either the size, when no live slot
    has the child, or an index below the size at which [ValueAt] gives the
    child back and before which [ValueAt] never gives it. *)
Theorem ValueIndex_ValueAt (p : Page) (value : ValueType) (r : Z) :
  ValueIndex p value = Done r →
  (r = GetSize p ∧ ∀ s : MappingType, s ∈ slots p → s.2 ≠ value)
  ∨ (0 ≤ r < GetSize p ∧ ValueAt p r = Done value
     ∧ ∀ j, 0 ≤ j < r → ValueAt p j ≠ Done value).
Proof.
  unfold ValueIndex. intros Hr.
  destruct (ValueIndex_loop_result p value _ 0 r Hr)
    as [(i & s & -> & Hi & Hs & Hv & Hmin)|[-> Hno]].
  - right. split; [lia|]. split.
    + unfold ValueAt.
      replace ((0 <=? Z.of_nat i) && (Z.of_nat i <? GetSize p)) with true
        by (symmetry; apply index_check; lia).
      simpl. rewrite (array_get_lookup _ _ _ Hs). simpl_result. by rewrite Hv.
    + intros j Hj. unfold ValueAt.
      replace ((0 <=? j) && (j <? GetSize p)) with true
        by (symmetry; apply index_check; lia).
      simpl. destruct (array_get (array p) j) as [sj|] eqn:Ej;
        simpl_result; [|done].
      apply array_get_Done in Ej as [_ Ej]. intros [= Hsj].
      apply (Hmin (Z.to_nat j) sj); [lia|done..].
  - left. split; [done|]. intros s (j & Hj)%list_elem_of_lookup.
    apply slots_lookup in Hj as [Hjn Hj]. apply (Hno j s); [lia|done].
Qed.

(** ** What Remove does at every index *)

(** X9: for every index in range [Remove] decreases the size by one and
    keeps the other header fields; every slot other than [index] below the
    new size stays where it was (the slots after [index] are not shifted),
    and slot [index] receives the slot that followed it. *)
Theorem Remove_actual (p : Page) (idx : nat) :
  GetSize p ≤ Z.of_nat (length (array p)) →
  Z.of_nat idx < GetSize p →
  ∃ p' : Page,
    Remove p (Z.of_nat idx) = Done p'
    ∧ GetSize p' = GetSize p - 1
    ∧ header p' = header p
    ∧ (∀ i : nat, i ≠ idx → Z.of_nat i < GetSize p - 1 →
         slots p' !! i = slots p !! i)
    ∧ (Z.of_nat idx + 1 < GetSize p → slots p' !! idx = slots p !! S idx).
Proof.
  intros Hcap Hidx.
  destruct (decide (Z.of_nat idx = GetSize p - 1)) as [Hlast|Hne].
  - exists (IncreaseSize p (-1)). split; [apply Remove_last; lia|].
    split; [done|]. split; [done|]. split; [|lia].
    intros i _ Hi. unfold slots. simpl. change (size_ p) with (GetSize p).
    rewrite !lookup_take_lt by lia. done.
  - destruct (lookup_lt_is_Some_2 (array p) (S idx)) as [s Hs]; [lia|].
    exists (IncreaseSize (set_array p (<[idx := s]> (array p))) (-1)).
    split; [apply Remove_inner; [lia|done]|]. split; [done|]. split; [done|].
    unfold slots. simpl. change (size_ p) with (GetSize p). split.
    + intros i Hi Hlt. rewrite !lookup_take_lt by lia.
      by rewrite list_lookup_insert_ne.
    + intros _. rewrite !lookup_take_lt by lia.
      rewrite list_lookup_insert_eq by lia. done.
Qed.

(** ** Lookup on any page and at a present key *)

Lemma Lookup_loop_live (p : Page) (key : KeyType) (fuel : nat) :
  ∀ low high : nat,
  (low < Z.to_nat (GetSize p))%nat → (high < Z.to_nat (GetSize p))%nat →
  GetSize p ≤ Z.of_nat (length (array p)) →
  (high - low ≤ fuel)%nat →
  ∃ (i : nat) (s : MappingType),
    slots p !! i = Some s ∧
    Lookup_loop comparator fuel p key (Z.of_nat low) (Z.of_nat high) = Done s.2.
Proof.
  induction fuel as [|fuel IH]; intros low high Hlow Hhigh Hcap Hfuel.
  - simpl.
    destruct (lookup_lt_is_Some_2 (slots p) low) as [sl Hsl];
      [rewrite length_slots; lia|].
    apply slots_lookup in Hsl as Hal. destruct Hal as [_ Hal].
    replace ((Z.of_nat low <? Z.of_nat high)
             && negb (Z.of_nat low + 1 =? Z.of_nat high)) with false
      by (symmetry; apply andb_false_iff; lia).
    rewrite (array_get_lookup _ _ _ Hal). by exists low, sl.
  - simpl.
    destruct ((Z.of_nat low <? Z.of_nat high)
              && negb (Z.of_nat low + 1 =? Z.of_nat high)) eqn:Hc.
    + apply andb_true_iff in Hc as [Hlt Hadj].
      apply Z.ltb_lt in Hlt. apply negb_true_iff, Z.eqb_neq in Hadj.
      pose proof (midpoint_between (Z.of_nat low) (Z.of_nat high)) as Hmid.
      set (mid := Z.to_nat (Z.of_nat low + (Z.of_nat high - Z.of_nat low) ÷ 2)).
      replace (Z.of_nat low + (Z.of_nat high - Z.of_nat low) ÷ 2)
        with (Z.of_nat mid) by lia.
      destruct (lookup_lt_is_Some_2 (slots p) mid) as [sm Hsm];
        [rewrite length_slots; lia|].
      apply slots_lookup in Hsm as Ham. destruct Ham as [_ Ham].
      rewrite (array_get_lookup _ _ _ Ham). simpl_result.
      destruct (_ <? 0); [apply IH; lia|].
      destruct (_ >? 0); [apply IH; lia|].
      by exists mid, sm.
    + destruct (lookup_lt_is_Some_2 (slots p) low) as [sl Hsl];
        [rewrite length_slots; lia|].
      apply slots_lookup in Hsl as Hal. destruct Hal as [_ Hal].
      rewrite (array_get_lookup _ _ _ Hal). by exists low, sl.
Qed.

(** X10: on every page of size > 1 whose live slots lie in the frame, and
    for every comparator and every order of the keys, [Lookup] returns, and
    what it returns is the child of a live slot. *)
Theorem Lookup_returns_live_child (p : Page) (key : KeyType) :
  1 < GetSize p ≤ Z.of_nat (length (array p)) →
  ∃ (i : nat) (s : MappingType),
    slots p !! i = Some s ∧ Lookup comparator p key = Done s.2.
Proof.
  intros Hsize. unfold Lookup.
  replace (GetSize p >? 1) with true by lia. simpl.
  destruct (lookup_lt_is_Some_2 (slots p) 0) as [s0 H0];
    [rewrite length_slots; lia|].
  destruct (lookup_lt_is_Some_2 (slots p) 1) as [s1 H1];
    [rewrite length_slots; lia|].
  destruct (lookup_lt_is_Some_2 (slots p) (Z.to_nat (GetSize p - 1)))
    as [sl Hl]; [rewrite length_slots; lia|].
  apply slots_lookup in H0 as Ha0. destruct Ha0 as [_ Ha0].
  apply slots_lookup in H1 as Ha1. destruct Ha1 as [_ Ha1].
  apply slots_lookup in Hl as Hal. destruct Hal as [_ Hal].
  rewrite (array_get_at _ 1 s1) by (lia || done). simpl_result.
  destruct (_ <? 0).
  - rewrite (array_get_at _ 0 s0) by (lia || done). by exists 0%nat, s0.
  - rewrite (array_get_at _ (GetSize p - 1) sl) by (lia || done). simpl_result.
    destruct (_ >=? 0); [by eexists _, sl|].
    destruct (Lookup_loop_live p key (Z.to_nat (GetSize p)) 1
                (Z.to_nat (GetSize p - 1))) as (i & s & Hs & Hrun);
      [lia..|].
    exists i, s. split; [done|]. rewrite <- Hrun. f_equal. lia.
Qed.

(** Looking up the key of a slot of an ordered page finds that slot. *)
Lemma Lookup_key_of_slot (p : Page) (i : nat) (si : MappingType) :
  ComparatorOrder comparator →
  1 < GetSize p ≤ Z.of_nat (length (array p)) →
  keys_increasing comparator p →
  (1 ≤ i)%nat → slots p !! i = Some si →
  Lookup comparator p si.1 = Done si.2.
Proof.
  intros Horder Hsize Hsorted Hi Hsi.
  assert (Hrefl : ∀ a, key_le comparator a a).
  { intros a. apply (key_le_not_lt Horder). unfold key_lt.
    pose proof (comparator_sym Horder a a). lia. }
  destruct (Lookup_correct Horder p si.1 Hsize Hsorted) as (_ & Hb & Hc).
  destruct (lookup_lt_is_Some_2 (slots p) 1) as [s1 H1];
    [rewrite length_slots; lia|].
  destruct (lookup_lt_is_Some_2 (slots p) (Z.to_nat (GetSize p - 1)))
    as [sl Hl]; [rewrite length_slots; lia|].
  assert (Hin : Z.of_nat i < GetSize p) by (by apply slots_lookup in Hsi as [? _]).
  destruct (decide (i = Z.to_nat (GetSize p - 1))) as [->|Hnl].
  - apply Hb; [done|apply Hrefl].
  - destruct (Hc s1 sl H1 Hl) as (i' & si' & Hi' & Hsi' & Hrun & Hle & Hmax).
    + destruct (decide (i = 1%nat)) as [->|].
      * assert (s1 = si) as -> by congruence.
        apply (key_le_not_lt Horder), Hrefl.
      * apply (key_le_not_lt Horder). unfold key_le.
        pose proof (Hsorted 1%nat i s1 si ltac:(lia) H1 Hsi) as Hlt.
        unfold key_lt in Hlt. lia.
    + intros Hle. apply (key_le_not_lt Horder) in Hle. apply Hle.
      apply (Hsorted i (Z.to_nat (GetSize p - 1))); [lia|done..].
    + destruct (Nat.lt_trichotomy i' i) as [Hlt|[->|Hgt]].
      * exfalso. apply (Hmax i si Hlt Hsi). apply Hrefl.
      * congruence.
      * exfalso. apply (key_le_not_lt Horder) in Hle. apply Hle.
        apply (Hsorted i i'); [lia|done..].
Qed.

(** X11: on a page of size > 1 with increasing keys, looking up the key of
    a slot at index >= 1 returns the child of that slot. *)
Theorem Lookup_present_key (p : Page) (i : nat) (si : MappingType) :
  ComparatorOrder comparator →
  1 < GetSize p ≤ Z.of_nat (length (array p)) →
  keys_increasing comparator p →
  (1 ≤ i)%nat → slots p !! i = Some si →
  Lookup comparator p si.1 = Done si.2.
Proof. apply Lookup_key_of_slot. Qed.

(** ** Inserting a separator and looking it up *)

Lemma lookup_inserted (l : list MappingType) (j t : nat) (x : MappingType) :
  (S j ≤ length l)%nat →
  (take (S j) l ++ x :: drop (S j) l) !! t
  = if decide (t < S j)%nat then l !! t
    else if decide (t = S j) then Some x else l !! (t - 1)%nat.
Proof.
  intros Hj. case_decide as H1.
  - rewrite lookup_app_l by (rewrite length_take; lia).
    by rewrite lookup_take_lt.
  - rewrite lookup_app_r by (rewrite length_take; lia).
    rewrite length_take, Nat.min_l by lia. case_decide as H2.
    + subst t. by rewrite Nat.sub_diag.
    + destruct (t - S j)%nat as [|d] eqn:E; [lia|]. simpl.
      rewrite lookup_drop. f_equal. lia.
Qed.

(** X12: inserting a pair whose key lies between the key of the slot it is
    put after and the key of the slot that followed keeps the keys of the
    page increasing, and [Lookup] of the new key then returns the new
    child. *)
Theorem InsertNodeAfter_Lookup (p : Page) (after_child : ValueType)
    (new_key : KeyType) (new_value : ValueType) (j : nat) (sj : MappingType) :
  ComparatorOrder comparator →
  0 < GetSize p < Z.of_nat (length (array p)) →
  keys_increasing comparator p →
  slots p !! j = Some sj → sj.2 = after_child →
  (∀ (i : nat) (s : MappingType),
     (j < i)%nat → slots p !! i = Some s → s.2 ≠ after_child) →
  ((1 ≤ j)%nat → key_lt comparator sj.1 new_key) →
  (∀ s : MappingType, slots p !! S j = Some s → key_lt comparator new_key s.1) →
  ∃ p' : Page,
    InsertNodeAfter p after_child new_key new_value = Done (GetSize p + 1, p')
    ∧ keys_increasing comparator p'
    ∧ Lookup comparator p' new_key = Done new_value.
Proof.
  intros Horder Hsize Hsorted Hj Hv Hlast Hbelow Habove.
  destruct (InsertNodeAfter_after_last p after_child new_key new_value j sj)
    as (p' & Hrun & Hsz & Hslots & _ & Hlen); [lia|done..|].
  assert (Hjn : (S j ≤ length (slots p))%nat)
    by (apply lookup_lt_Some in Hj; lia).
  assert (Hinc : keys_increasing comparator p').
  { intros a b sa sb Hab. rewrite Hslots, !lookup_inserted by done.
    repeat case_decide; try lia; intros Ha Hb.
    - by apply (Hsorted a b).
    - injection Hb as <-. simpl. destruct (decide (a = j)) as [->|].
      + assert (sa = sj) as -> by congruence. apply Hbelow. lia.
      + apply (key_lt_trans Horder _ sj.1); [|apply Hbelow; lia].
        apply (Hsorted a j); [lia|done..].
    - apply (Hsorted a (b - 1)%nat); [lia|done..].
    - injection Ha as <-. simpl. destruct (decide (b - 1 = S j)%nat) as [E|].
      + apply Habove. by rewrite <- E.
      + destruct (lookup_lt_is_Some_2 (slots p) (S j)) as [s Hs].
        { apply lookup_lt_Some in Hb. lia. }
        apply (key_lt_trans Horder _ s.1); [by apply Habove|].
        apply (Hsorted (S j) (b - 1)%nat); [lia|done..].
    - apply (Hsorted (a - 1)%nat (b - 1)%nat); [lia|done..]. }
  exists p'. split; [done|]. split; [done|].
  apply (Lookup_key_of_slot p' (S j) (new_key, new_value)); [done| |done|lia|].
  - rewrite Hsz, Hlen. lia.
  - rewrite Hslots, lookup_inserted by done.
    rewrite decide_False by lia. by rewrite decide_True.
Qed.

(** ** QueueUpChildren *)

Local Abbreviation QueueUpChildren_loop :=
  (@QueueUpChildren_loop KeyType) (only parsing).
Local Abbreviation QueueUpChildren := (@QueueUpChildren KeyType) (only parsing).

Lemma pin_all_count (ids : list page_id_t) :
  ∀ (pins : gmap Z Z) (id : page_id_t),
  default 0 (pin_all ids pins !! id)
  = default 0 (pins !! id) + occurrences id ids.
Proof.
  unfold occurrences.
  induction ids as [|c ids IH]; intros pins id; simpl; [lia|].
  rewrite IH, filter_cons. destruct (decide (c = id)) as [->|Hne].
  - rewrite lookup_insert_eq. simpl. lia.
  - rewrite lookup_insert_ne by done. lia.
Qed.

Lemma QueueUpChildren_loop_run (this : page_id_t) (p : Page) (n : nat) :
  ∀ (i : nat) (bpm : BufferPoolManager) (queue : list page_id_t),
  frames bpm !! this = Some p →
  (i + n ≤ length (array p))%nat →
  (∀ c, c ∈ (take n (drop i (array p))).*2 → is_Some (frames bpm !! c)) →
  QueueUpChildren_loop n (Z.of_nat i) this queue bpm
  = Done ((queue ++ (take n (drop i (array p))).*2, None),
          mkBPM (frames bpm)
                (pin_all (take n (drop i (array p))).*2 (pins bpm))
                (trace bpm ++ (EvFetchPage <$> (take n (drop i (array p))).*2))).
Proof.
  induction n as [|n IH]; intros i bpm queue Hp Hlen Hin.
  - simpl. rewrite !app_nil_r. by destruct bpm.
  - destruct (lookup_lt_is_Some_2 (array p) i) as [s Hs]; [lia|].
    rewrite (drop_S _ _ _ Hs) in *. simpl in Hin. simpl.
    rewrite (M_bind_run _ _ bpm bpm s)
      by (apply (call_run _ _ _ p); [done|by apply array_get_lookup]).
    destruct (Hin s.2) as [pg Hpg]; [apply list_elem_of_here|].
    unfold mbind at 1, M_bind at 1, FetchPage at 1. rewrite Hpg.
    replace (Z.of_nat i + 1) with (Z.of_nat (S i)) by lia.
    rewrite IH; simpl; [|done|lia|].
    + unfold pin_count. rewrite <- !app_assoc. done.
    + intros c Hc. apply Hin. by apply list_elem_of_further.
Qed.

Lemma QueueUpChildren_loop_throw (this : page_id_t) (p : Page) (k : nat) :
  ∀ (n i : nat) (bpm : BufferPoolManager) (queue : list page_id_t)
    (sk : MappingType),
  frames bpm !! this = Some p →
  (k < n)%nat →
  array p !! (i + k)%nat = Some sk → frames bpm !! sk.2 = None →
  (∀ c, c ∈ (take k (drop i (array p))).*2 → is_Some (frames bpm !! c)) →
  QueueUpChildren_loop n (Z.of_nat i) this queue bpm
  = Done ((queue ++ (take k (drop i (array p))).*2,
           Some EXCEPTION_TYPE_INDEX_all_pinned),
          mkBPM (frames bpm)
                (pin_all (take k (drop i (array p))).*2 (pins bpm))
                (trace bpm ++ (EvFetchPage <$> (take k (drop i (array p))).*2)
                 ++ [EvFetchPage sk.2])).
Proof.
  induction k as [|k IH]; intros n i bpm queue sk Hp Hkn Hsk Hmiss Hin;
    (destruct n as [|n]; [lia|]).
  - rewrite Nat.add_0_r in Hsk. simpl.
    rewrite (M_bind_run _ _ bpm bpm sk)
      by (apply (call_run _ _ _ p); [done|by apply array_get_lookup]).
    unfold mbind at 1, M_bind at 1, FetchPage at 1. rewrite Hmiss.
    by rewrite app_nil_r.
  - destruct (lookup_lt_is_Some_2 (array p) i) as [s Hs].
    { apply lookup_lt_Some in Hsk. lia. }
    rewrite (drop_S _ _ _ Hs) in *. simpl in Hin. simpl.
    rewrite (M_bind_run _ _ bpm bpm s)
      by (apply (call_run _ _ _ p); [done|by apply array_get_lookup]).
    destruct (Hin s.2) as [pg Hpg]; [apply list_elem_of_here|].
    unfold mbind at 1, M_bind at 1, FetchPage at 1. rewrite Hpg.
    replace (Z.of_nat i + 1) with (Z.of_nat (S i)) by lia.
    rewrite (IH n (S i) _ _ sk); simpl; [|done|lia| |done|].
    + unfold pin_count. rewrite <- !app_assoc. done.
    + rewrite <- Hsk. f_equal. lia.
    + intros c Hc. apply Hin. by apply list_elem_of_further.
Qed.

(** X13: when every child named by a live slot can be fetched,
    [QueueUpChildren] appends the children to the queue in slot order and
    throws nothing; it fetches each of them once, in that order, and unpins
    none: every pin count grows by the number of live slots naming the page,
    and the frames are untouched. *)
Theorem QueueUpChildren_pins_children (this : page_id_t) (p : Page)
    (bpm : BufferPoolManager) (queue : list page_id_t) :
  frames bpm !! this = Some p →
  GetSize p ≤ Z.of_nat (length (array p)) →
  (∀ c, c ∈ (slots p).*2 → is_Some (frames bpm !! c)) →
  ∃ bpm' : BufferPoolManager,
    QueueUpChildren this queue bpm = Done ((queue ++ (slots p).*2, None), bpm')
    ∧ frames bpm' = frames bpm
    ∧ trace bpm' = trace bpm ++ (EvFetchPage <$> (slots p).*2)
    ∧ ∀ id, pin_count bpm' id = pin_count bpm id + occurrences id (slots p).*2.
Proof.
  intros Hp Hcap Hin. eexists. split.
  - unfold QueueUpChildren.
    rewrite (M_bind_run _ _ bpm bpm (GetSize p))
      by (by apply (call_run _ _ _ p)).
    apply (QueueUpChildren_loop_run this p _ 0%nat); [done|simpl; lia|done].
  - simpl. split; [done|]. split; [done|].
    intros id. unfold pin_count. simpl. apply pin_all_count.
Qed.

(** X14: when the child of live slot [k] cannot be fetched and those of the
    slots before it can, [QueueUpChildren] throws at slot [k]: the queue has
    received the children of the slots before [k], which stay pinned, and
    the slots after [k] are not visited. *)
Theorem QueueUpChildren_missing_child (this : page_id_t) (p : Page)
    (bpm : BufferPoolManager) (queue : list page_id_t) (k : nat)
    (sk : MappingType) :
  frames bpm !! this = Some p →
  slots p !! k = Some sk → frames bpm !! sk.2 = None →
  (∀ c, c ∈ (take k (slots p)).*2 → is_Some (frames bpm !! c)) →
  ∃ bpm' : BufferPoolManager,
    QueueUpChildren this queue bpm
    = Done ((queue ++ (take k (slots p)).*2,
             Some EXCEPTION_TYPE_INDEX_all_pinned), bpm')
    ∧ frames bpm' = frames bpm
    ∧ trace bpm' = trace bpm ++ (EvFetchPage <$> (take k (slots p)).*2)
                   ++ [EvFetchPage sk.2]
    ∧ ∀ id, pin_count bpm' id
            = pin_count bpm id + occurrences id (take k (slots p)).*2.
Proof.
  intros Hp Hk Hmiss Hin. apply slots_lookup in Hk as [Hkn Hk].
  assert (Htake : take k (slots p) = take k (drop 0 (array p))).
  { unfold slots. rewrite take_take. simpl. f_equal. lia. }
  rewrite Htake in *. eexists. split.
  - unfold QueueUpChildren.
    rewrite (M_bind_run _ _ bpm bpm (GetSize p))
      by (by apply (call_run _ _ _ p)).
    apply (QueueUpChildren_loop_throw this p k _ 0%nat _ _ sk);
      [done|lia|done..].
  - simpl. split; [done|]. split; [done|].
    intros id. unfold pin_count. simpl. apply pin_all_count.
Qed.

(** ** Redistribution, slot by slot *)

Lemma FetchPage_run (id : page_id_t) (bpm : BufferPoolManager) (pg : Page) :
  frames bpm !! id = Some pg →
  FetchPage id bpm
  = Done (Some id,
          mkBPM (frames bpm) (<[id := pin_count bpm id + 1]> (pins bpm))
                (trace bpm ++ [EvFetchPage id])).
Proof. intros H. unfold FetchPage. by rewrite H. Qed.

Lemma deref_opt_run (q : page_id_t) (bpm : BufferPoolManager) (pg : Page) :
  frames bpm !! q = Some pg → deref_opt (Some q) bpm = Done (q, bpm).
Proof.
  intros H. simpl. unfold mbind, M_bind, deref. by rewrite H.
Qed.

Lemma KeyAt_run (p : Page) (index : Z) (s : MappingType) :
  0 ≤ index < GetSize p → array p !! Z.to_nat index = Some s →
  KeyAt p index = Done s.1.
Proof.
  intros Hidx Hs. unfold KeyAt.
  replace ((0 <=? index) && (index <? GetSize p)) with true
    by (symmetry; by apply index_check).
  simpl. by rewrite (array_get_at _ index s) by (lia || done).
Qed.

Lemma SetKeyAt_run (p : Page) (index : Z) (key : KeyType) (s : MappingType) :
  0 ≤ index < GetSize p → array p !! Z.to_nat index = Some s →
  SetKeyAt p index key
  = Done (set_array p (<[Z.to_nat index := (key, s.2)]> (array p))).
Proof.
  intros Hidx Hs. unfold SetKeyAt.
  replace ((0 <=? index) && (index <? GetSize p)) with true
    by (symmetry; by apply index_check).
  simpl. rewrite (array_get_at _ index s) by (lia || done). simpl_result.
  rewrite array_set_Done by (apply lookup_lt_Some in Hs; lia). done.
Qed.

Ltac frame_lookup :=
  simpl;
  repeat first [ rewrite lookup_insert_eq
               | rewrite lookup_insert_ne by (done || (symmetry; done)) ];
  first [ eassumption | reflexivity ].

(** One step of a run that is known to succeed. *)
Ltac run_step tac := erewrite M_bind_run; [|tac].

(** A run of [CopyLastFrom] on a recipient with room. *)
Lemma CopyLastFrom_run (this : page_id_t) (pair : MappingType)
    (bpm : BufferPoolManager) (dst par : Page) (index : Z) (sp : MappingType) :
  frames bpm !! this = Some dst →
  GetParentPageId dst ≠ this →
  frames bpm !! GetParentPageId dst = Some par →
  GetSize dst + 1 < GetMaxSize dst →
  0 ≤ GetSize dst < Z.of_nat (length (array dst)) →
  ValueIndex par (GetPageId dst) = Done index →
  0 ≤ index + 1 < GetSize par →
  array par !! Z.to_nat (index + 1) = Some sp →
  ∃ (bpm' : BufferPoolManager) (dst' par' : Page),
    CopyLastFrom this pair bpm = Done (tt, bpm')
    ∧ frames bpm' !! this = Some dst'
    ∧ frames bpm' !! GetParentPageId dst = Some par'
    ∧ GetSize dst' = GetSize dst + 1
    ∧ slots dst' = slots dst ++ [(sp.1, pair.2)]
    ∧ par' = set_array par (<[Z.to_nat (index + 1) := (pair.1, sp.2)]> (array par))
    ∧ ∀ id, id ≠ this → id ≠ GetParentPageId dst →
            frames bpm' !! id = frames bpm !! id.
Proof.
  intros Hdst Hne Hpar Hroom Hsize Hindex Hidx Hsp.
  set (pid := GetParentPageId dst) in *.
  set (n := Z.to_nat (GetSize dst)).
  set (dst1 := set_array dst (<[n := (sp.1, pair.2)]> (array dst))).
  set (par1 := set_array par (<[Z.to_nat (index + 1) := (pair.1, sp.2)]> (array par))).
  eexists _, (IncreaseSize dst1 1), par1. split.
  - unfold CopyLastFrom.
    run_step ltac:(apply (call_run _ _ _ dst tt Hdst); apply assert_Done; lia).
    run_step ltac:(by apply (call_run _ _ _ dst pid Hdst)).
    run_step ltac:(by apply (FetchPage_run pid bpm par)).
    run_step ltac:(by apply (deref_opt_run pid _ par)).
    run_step ltac:(by apply (call_run _ _ _ dst (GetPageId dst))).
    run_step ltac:(by apply (call_run _ _ _ par index)).
    run_step ltac:(apply (call_run _ _ _ par sp.1); [done|by apply KeyAt_run]).
    run_step ltac:(apply (update_run _ _ _ dst dst1); [done|];
                   rewrite array_set_Done by lia; done).
    run_step ltac:(apply (update_run _ _ _ dst1 (IncreaseSize dst1 1));
                   [frame_lookup|done]).
    run_step ltac:(apply (update_run _ _ _ par par1);
                   [frame_lookup|by apply SetKeyAt_run]).
    run_step ltac:(apply (call_run _ _ _ par1 (GetPageId par1));
                   [frame_lookup|done]).
    reflexivity.
  - simpl. split; [frame_lookup|]. split; [frame_lookup|].
    split; [done|]. split; [|split; [done|]].
    + unfold slots. simpl. change (size_ dst) with (GetSize dst).
      replace (Z.to_nat (GetSize dst + 1)) with (S n) by lia. fold n.
      assert (Hn : (n < length (array dst))%nat) by (unfold n; lia).
      rewrite (take_S_r _ n (sp.1, pair.2))
        by (by apply list_lookup_insert_eq).
      by rewrite take_insert_ge.
    + intros id H1 H2. by rewrite !lookup_insert_ne.
Qed.

(** X15: what [CopyLastFrom] does on a recipient with room, whose parent
    holds it at [index] with a slot after it: the recipient gets one more
    live slot, made of the parent's key at [index + 1] and the child of
    [pair]; the parent's key at [index + 1] becomes the key of [pair]; no
    other slot of the two pages and no other page changes. *)
Theorem CopyLastFrom_spec (this : page_id_t) (pair : MappingType)
    (bpm : BufferPoolManager) (dst par : Page) (index : Z) (sp : MappingType) :
  frames bpm !! this = Some dst →
  GetParentPageId dst ≠ this →
  frames bpm !! GetParentPageId dst = Some par →
  GetSize dst + 1 < GetMaxSize dst →
  0 ≤ GetSize dst < Z.of_nat (length (array dst)) →
  ValueIndex par (GetPageId dst) = Done index →
  0 ≤ index + 1 < GetSize par →
  array par !! Z.to_nat (index + 1) = Some sp →
  ∃ (bpm' : BufferPoolManager) (dst' par' : Page),
    CopyLastFrom this pair bpm = Done (tt, bpm')
    ∧ frames bpm' !! this = Some dst'
    ∧ frames bpm' !! GetParentPageId dst = Some par'
    ∧ GetSize dst' = GetSize dst + 1
    ∧ slots dst' = slots dst ++ [(sp.1, pair.2)]
    ∧ par' = set_array par (<[Z.to_nat (index + 1) := (pair.1, sp.2)]> (array par))
    ∧ ∀ id, id ≠ this → id ≠ GetParentPageId dst →
            frames bpm' !! id = frames bpm !! id.
Proof. apply CopyLastFrom_run. Qed.

(** The steps of [CopyFirstFrom] on a recipient with room whose slot 0 is
    the only live slot with its child. *)
Lemma CopyFirstFrom_run (this : page_id_t) (pair : MappingType)
    (parent_index : Z) (bpm : BufferPoolManager) (dst par : Page)
    (d0 sp : MappingType) :
  frames bpm !! this = Some dst →
  GetParentPageId dst ≠ this →
  frames bpm !! GetParentPageId dst = Some par →
  GetSize dst + 1 < GetMaxSize dst →
  0 < GetSize dst < Z.of_nat (length (array dst)) →
  array dst !! 0%nat = Some d0 →
  (∀ (i : nat) (s : MappingType),
     (0 < i)%nat → slots dst !! i = Some s → s.2 ≠ d0.2) →
  0 ≤ parent_index < GetSize par →
  array par !! Z.to_nat parent_index = Some sp →
  ∃ (bpm' : BufferPoolManager) (dst' par' : Page),
    CopyFirstFrom this pair parent_index bpm = Done (tt, bpm')
    ∧ frames bpm' !! this = Some dst'
    ∧ frames bpm' !! GetParentPageId dst = Some par'
    ∧ GetSize dst' = GetSize dst + 1
    ∧ slots dst' = (d0.1, pair.2) :: (sp.1, d0.2) :: drop 1 (slots dst)
    ∧ par' = set_array par (<[Z.to_nat parent_index := (pair.1, sp.2)]> (array par))
    ∧ ∀ id, id ≠ this → id ≠ GetParentPageId dst →
            frames bpm' !! id = frames bpm !! id.
Proof.
  intros Hdst Hne Hpar Hroom Hsize Hd0 Huniq Hidx Hsp.
  set (pid := GetParentPageId dst) in *.
  assert (Hs0 : slots dst !! 0%nat = Some d0)
    by (apply slots_lookup; split; [lia|done]).
  destruct (InsertNodeAfter_after_last dst d0.2 sp.1 d0.2 0 d0)
    as (dst1 & Hins & Hsz1 & Hslots1 & Hhdr1 & Hlen1); [lia|done..|].
  assert (Hd1 : array dst1 !! 0%nat = Some d0).
  { assert (H : slots dst1 !! 0%nat = Some d0).
    { rewrite Hslots1.
      rewrite lookup_app_l by (rewrite length_take, length_slots; lia).
      by rewrite lookup_take_lt by lia. }
    by apply slots_lookup in H as [_ H]. }
  set (par1 := set_array par (<[Z.to_nat parent_index := (pair.1, sp.2)]> (array par))).
  set (dst2 := set_array dst1 (<[0%nat := (d0.1, pair.2)]> (array dst1))).
  exists (mkBPM (<[this := dst2]> (<[this := dst1]> (<[pid := par1]> (frames bpm))))
            (<[GetPageId par1 := pin_count
                 (mkBPM (frames bpm) (<[pid := pin_count bpm pid + 1]> (pins bpm))
                    (trace bpm ++ [EvFetchPage pid])) (GetPageId par1) - 1]>
               (<[pid := pin_count bpm pid + 1]> (pins bpm)))
            ((trace bpm ++ [EvFetchPage pid]) ++ [EvUnpinPage (GetPageId par1) true])),
         dst2, par1.
  split.
  - unfold CopyFirstFrom.
    run_step ltac:(apply (call_run _ _ _ dst tt Hdst); apply assert_Done; lia).
    run_step ltac:(by apply (call_run _ _ _ dst pid Hdst)).
    run_step ltac:(by apply (FetchPage_run pid bpm par)).
    run_step ltac:(by apply (deref_opt_run pid _ par)).
    run_step ltac:(apply (call_run _ _ _ par sp.1); [done|by apply KeyAt_run]).
    run_step ltac:(apply (update_run _ _ _ par par1);
                   [done|by apply SetKeyAt_run]).
    run_step ltac:(apply (update_run _ _ _ dst dst1); [frame_lookup|];
                   rewrite (array_get_at _ 0 d0) by (lia || done);
                   simpl_result; rewrite Hins; done).
    run_step ltac:(apply (update_run _ _ _ dst1 dst2); [frame_lookup|];
                   rewrite (array_get_at _ 0 d0) by (lia || done);
                   simpl_result;
                   rewrite array_set_Done by (rewrite Hlen1; lia); done).
    run_step ltac:(apply (call_run _ _ _ par1 (GetPageId par1));
                   [frame_lookup|done]).
    reflexivity.
  - simpl. split; [frame_lookup|]. split; [frame_lookup|].
    split; [done|]. split; [|split; [done|]].
    + unfold slots. simpl. change (size_ dst1) with (GetSize dst1).
      rewrite take_insert_lt by lia. fold (slots dst1) (slots dst).
      rewrite Hslots1.
      destruct (slots dst) as [|x rest]; [done|]. by injection Hs0 as ->.
    + intros id H1 H2. by rewrite !lookup_insert_ne.
Qed.

(** X16: what [CopyFirstFrom] does on a recipient with room whose slot 0 is
    its only live slot with that child: the recipient gets a new slot 0
    child, the one of [pair], and a new slot 1 made of the parent's key at
    [parent_index] and the former slot 0 child, the other slots moving one
    place to the right; the parent's key at [parent_index] becomes the key
    of [pair]; no other page changes. *)
Theorem CopyFirstFrom_spec (this : page_id_t) (pair : MappingType)
    (parent_index : Z) (bpm : BufferPoolManager) (dst par : Page)
    (d0 sp : MappingType) :
  frames bpm !! this = Some dst →
  GetParentPageId dst ≠ this →
  frames bpm !! GetParentPageId dst = Some par →
  GetSize dst + 1 < GetMaxSize dst →
  0 < GetSize dst < Z.of_nat (length (array dst)) →
  array dst !! 0%nat = Some d0 →
  (∀ (i : nat) (s : MappingType),
     (0 < i)%nat → slots dst !! i = Some s → s.2 ≠ d0.2) →
  0 ≤ parent_index < GetSize par →
  array par !! Z.to_nat parent_index = Some sp →
  ∃ (bpm' : BufferPoolManager) (dst' par' : Page),
    CopyFirstFrom this pair parent_index bpm = Done (tt, bpm')
    ∧ frames bpm' !! this = Some dst'
    ∧ frames bpm' !! GetParentPageId dst = Some par'
    ∧ GetSize dst' = GetSize dst + 1
    ∧ slots dst' = (d0.1, pair.2) :: (sp.1, d0.2) :: drop 1 (slots dst)
    ∧ par' = set_array par (<[Z.to_nat parent_index := (pair.1, sp.2)]> (array par))
    ∧ ∀ id, id ≠ this → id ≠ GetParentPageId dst →
            frames bpm' !! id = frames bpm !! id.
Proof. apply CopyFirstFrom_run. Qed.

(** X17: [MoveLastToFrontOf] moves the last child of the page to the front
    of its right sibling: the page loses its last slot, the sibling gets
    that child in slot 0 and its former slot 0 child in a new slot 1 under
    the parent's key at [parent_index], which is replaced by the key of the
    moved slot. The children of the two siblings, read from left to right,
    are the same sequence before and after. *)
Theorem MoveLastToFrontOf_spec (this recipient : page_id_t) (parent_index : Z)
    (bpm : BufferPoolManager) (src dst par : Page) (sl d0 sp : MappingType) :
  this ≠ recipient →
  frames bpm !! this = Some src → frames bpm !! recipient = Some dst →
  GetParentPageId dst ≠ this → GetParentPageId dst ≠ recipient →
  frames bpm !! GetParentPageId dst = Some par →
  1 < GetSize src →
  array src !! Z.to_nat (GetSize src - 1) = Some sl →
  GetSize dst + 1 < GetMaxSize dst →
  0 < GetSize dst < Z.of_nat (length (array dst)) →
  array dst !! 0%nat = Some d0 →
  (∀ (i : nat) (s : MappingType),
     (0 < i)%nat → slots dst !! i = Some s → s.2 ≠ d0.2) →
  0 ≤ parent_index < GetSize par →
  array par !! Z.to_nat parent_index = Some sp →
  ∃ (bpm' : BufferPoolManager) (src' dst' par' : Page),
    MoveLastToFrontOf this recipient parent_index bpm = Done (tt, bpm')
    ∧ frames bpm' !! this = Some src'
    ∧ frames bpm' !! recipient = Some dst'
    ∧ frames bpm' !! GetParentPageId dst = Some par'
    ∧ GetSize src' = GetSize src - 1
    ∧ slots src' = take (Z.to_nat (GetSize src - 1)) (slots src)
    ∧ slots dst' = (d0.1, sl.2) :: (sp.1, d0.2) :: drop 1 (slots dst)
    ∧ par' = set_array par (<[Z.to_nat parent_index := (sl.1, sp.2)]> (array par))
    ∧ (slots src').*2 ++ (slots dst').*2 = (slots src).*2 ++ (slots dst).*2.
Proof.
  intros Hne Hsrc Hdst Hpt Hpr Hpar Hn Hsl Hroom Hsize Hd0 Huniq Hidx Hsp.
  set (src1 := IncreaseSize src (-1)).
  set (bpm1 := mkBPM (<[this := src1]> (frames bpm)) (pins bpm) (trace bpm)).
  destruct (CopyFirstFrom_run recipient sl parent_index bpm1 dst par d0 sp)
    as (bpm' & dst' & par' & Hrun & Hf1 & Hf2 & Hsz & Hslots & Hpar' & Hother);
    [by frame_lookup|done|by frame_lookup|done..|].
  exists bpm', src1, dst', par'. split.
  - unfold MoveLastToFrontOf.
    run_step ltac:(apply (call_run _ _ _ src tt Hsrc); apply assert_Done; lia).
    run_step ltac:(by apply (update_run _ _ _ src src1)).
    assert (Hsz1 : GetSize src1 = GetSize src - 1)
      by (unfold src1, GetSize; simpl; lia).
    run_step ltac:(apply (call_run _ _ bpm1 src1 sl); [frame_lookup|];
                   apply array_get_at; rewrite Hsz1; [lia|done]).
    exact Hrun.
  - split; [rewrite Hother by done; frame_lookup|].
    do 2 (split; [done|]). split; [done|].
    assert (Hlast : slots src = take (Z.to_nat (GetSize src - 1)) (slots src) ++ [sl]).
    { unfold slots. rewrite take_take, Nat.min_l by lia.
      replace (Z.to_nat (GetSize src)) with (S (Z.to_nat (GetSize src - 1))) by lia.
      by apply take_S_r. }
    split.
    { unfold slots. simpl. rewrite take_take. f_equal.
      change (size_ src) with (GetSize src). lia. }
    do 2 (split; [done|]).
    replace (slots src1) with (take (Z.to_nat (GetSize src - 1)) (slots src)).
    2:{ unfold slots. simpl. rewrite take_take. f_equal.
        change (size_ src) with (GetSize src). lia. }
    rewrite Hslots. rewrite Hlast at 2. rewrite fmap_app, <- app_assoc. simpl.
    do 2 f_equal.
    assert (Hs0 : slots dst !! 0%nat = Some d0)
      by (apply slots_lookup; split; [lia|done]).
    destruct (slots dst) as [|x rest]; [done|]. by injection Hs0 as ->.
Qed.

(** ** Pinning by the callers of CopyLastFrom and CopyFirstFrom *)

Lemma keeps_header_copy_slot (i j : Z) :
  keeps_header (λ p : Page, s ← array_get (array p) i;
                            a ← array_set (array p) j s;
                            mret (set_array p a)).
Proof.
  intros p p'. destruct (array_get _ _) as [s|]; simpl_result; [|done].
  destruct (array_set _ _ _) as [a|]; [|done]. by intros [= <-].
Qed.

Lemma only_frames_consistent (bpm b : BufferPoolManager) :
  only_frames bpm b → header_ids_consistent bpm → header_ids_consistent b.
Proof.
  intros (_ & _ & Hh) Hids id p Hp. specialize (Hh id). rewrite Hp in Hh.
  destruct (frames bpm !! id) as [p0|] eqn:E; [|done].
  apply Hids in E. injection Hh as _ _ _ Hh. unfold GetPageId in *. congruence.
Qed.

Lemma balanced_after_slot_code (this : page_id_t) (bpm b bpm' : BufferPoolManager) :
  only_frames bpm b →
  parent_fetched_and_unpinned_once this b bpm' →
  parent_fetched_and_unpinned_once this bpm bpm'.
Proof.
  intros (Hp & Ht & Hh) (page & Hpage & Htrace & Hpins).
  specialize (Hh this). rewrite Hpage in Hh.
  destruct (frames bpm !! this) as [page0|] eqn:E; [|done].
  injection Hh as _ _ Hh _. exists page0. split; [done|].
  unfold GetParentPageId in *. rewrite <- Hh, <- Ht. split; [done|].
  intros id. rewrite Hpins. unfold pin_count. by rewrite Hp.
Qed.

(** X18: every run of [MoveFirstToEndOf] and of [MoveLastToFrontOf] that
    returns has fetched the parent of the recipient exactly once and
    unpinned it exactly once, made no other call to the pool, and left
    every pin count at its value before the call. *)
Theorem movers_pin_balanced (bpm : BufferPoolManager) :
  header_ids_consistent bpm →
  (∀ this recipient bpm',
     MoveFirstToEndOf this recipient bpm = Done (tt, bpm') →
     parent_fetched_and_unpinned_once recipient bpm bpm')
  ∧ (∀ this recipient parent_index bpm',
     MoveLastToFrontOf this recipient parent_index bpm = Done (tt, bpm') →
     parent_fetched_and_unpinned_once recipient bpm bpm').
Proof.
  intros Hids. split.
  - intros this recipient bpm' H. unfold MoveFirstToEndOf in H.
    apply M_bind_Done in H as (? & b1 & H1%slot_code_call & H).
    apply M_bind_Done in H as (pair & b2 & H2%slot_code_call & H).
    apply M_bind_Done in H as (? & b3 & H3 & H).
    apply (slot_code_update _ _ (keeps_header_copy_slot 1 0)) in H3.
    apply M_bind_Done in H as (? & b4 & H4 & H).
    apply (slot_code_update _ _ (keeps_header_Remove 1)) in H4.
    assert (Hof : only_frames bpm b4) by chain_frames.
    apply (balanced_after_slot_code _ _ b4); [done|].
    apply (CopyLastFrom_balanced _ pair _ _ tt); [|done].
    by apply (only_frames_consistent bpm).
  - intros this recipient parent_index bpm' H. unfold MoveLastToFrontOf in H.
    apply M_bind_Done in H as (? & b1 & H1%slot_code_call & H).
    apply M_bind_Done in H as (? & b2 & H2 & H).
    apply (slot_code_update _ _ (keeps_header_IncreaseSize (-1))) in H2.
    apply M_bind_Done in H as (pair & b3 & H3%slot_code_call & H).
    assert (Hof : only_frames bpm b3) by chain_frames.
    apply (balanced_after_slot_code _ _ b3); [done|].
    apply (CopyFirstFrom_balanced _ pair parent_index _ _ tt); [|done].
    by apply (only_frames_consistent bpm).
Qed.

(** ** What a merge copies *)

(** X19: [CopyAllFrom] copies the first [size - GetSize()] items only, to
    the slots from [GetSize()] on, and none when [size <= GetSize()]; the
    remaining items are never copied, while the size grows by [size]. *)
Theorem CopyAllFrom_actual (this srcid : page_id_t) (off : nat) (size : Z)
    (bpm : BufferPoolManager) (dst src : Page) :
  this ≠ srcid →
  frames bpm !! this = Some dst → frames bpm !! srcid = Some src →
  GetSize dst + size < GetMaxSize dst →
  0 ≤ GetSize dst ≤ Z.of_nat (length (array dst)) →
  size ≤ Z.of_nat (length (array dst)) →
  (off + Z.to_nat (size - GetSize dst) ≤ length (array src))%nat →
  ∃ (bpm' : BufferPoolManager) (dst' : Page),
    CopyAllFrom this (srcid, Z.of_nat off) size bpm = Done (tt, bpm')
    ∧ frames bpm' !! this = Some dst'
    ∧ GetSize dst' = GetSize dst + size
    ∧ array dst' = copied (array dst) (array src) (Z.to_nat (GetSize dst)) off
                          (Z.to_nat (size - GetSize dst))
    ∧ ∀ id, id ≠ this → frames bpm' !! id = frames bpm !! id.
Proof.
  intros Hne Hdst Hsrc Hmax Hsz Hcap Hoff.
  set (dst1 := set_array dst (copied (array dst) (array src)
                                (Z.to_nat (GetSize dst)) off
                                (Z.to_nat (size - GetSize dst)))).
  eexists _, (IncreaseSize dst1 size). split.
  - unfold CopyAllFrom.
    run_step ltac:(apply (call_run _ _ _ dst tt Hdst); apply assert_Done; lia).
    run_step ltac:(by apply (call_run _ _ _ dst (GetSize dst) Hdst)).
    run_step ltac:(
      pose proof (copy_items_run this srcid src (Z.to_nat (size - GetSize dst))
                    bpm dst (Z.to_nat (GetSize dst)) off) as Hc;
      replace (Z.of_nat (Z.to_nat (GetSize dst))) with (GetSize dst) in Hc by lia;
      apply Hc; [done..|lia|done]).
    apply (update_run _ _ _ dst1); [frame_lookup|done].
  - simpl. split; [frame_lookup|]. split; [done|]. split; [done|].
    intros id Hid. by rewrite !lookup_insert_ne.
Qed.

(** ** Printing a page *)

Lemma append_assoc (a b c : string) : (a +:+ b) +:+ c = a +:+ b +:+ c.
Proof.
  induction a as [|x a IH]; [done|].
  change (String x ((a +:+ b) +:+ c) = String x (a +:+ b +:+ c)).
  by rewrite IH.
Qed.

Lemma append_nil_r (a : string) : a +:+ "" = a.
Proof.
  induction a as [|x a IH]; [done|].
  change (String x (a +:+ "") = String x a). by rewrite IH.
Qed.

Lemma concat_cons (sep x : string) (l : list string) :
  String.concat sep (x :: l)
  = x +:+ foldr (λ y acc, sep +:+ y +:+ acc) "" l.
Proof.
  revert x. induction l as [|y l IH]; intros x.
  - simpl. by rewrite append_nil_r.
  - change (String.concat sep (x :: y :: l))
      with (x +:+ sep +:+ String.concat sep (y :: l)).
    by rewrite IH.
Qed.

Lemma ToString_loop_rest (KeyToString : KeyType → string) (verbose : bool)
    (p : Page) (n e : nat) (os : string) :
  (e + n ≤ length (array p))%nat →
  ToString_loop KeyToString n (Z.of_nat e) false verbose p os
  = Done (os +:+ foldr (λ y acc, " " +:+ y +:+ acc) ""
                   (slot_text KeyToString verbose <$> take n (drop e (array p)))).
Proof.
  revert e os. induction n as [|n IH]; intros e os Hlen.
  - simpl. by rewrite append_nil_r.
  - destruct (lookup_lt_is_Some_2 (array p) e) as [s Hs]; [lia|].
    cbn [ToString_loop]. rewrite (array_get_lookup _ _ _ Hs). simpl_result.
    replace (Z.of_nat e + 1) with (Z.of_nat (S e)) by lia.
    rewrite IH by lia. rewrite (drop_S _ _ _ Hs). simpl. f_equal.
    unfold slot_text. destruct verbose; by rewrite !append_assoc.
Qed.

Lemma ToString_loop_all (KeyToString : KeyType → string) (verbose : bool)
    (p : Page) (n e : nat) (os : string) :
  (e + n ≤ length (array p))%nat →
  ToString_loop KeyToString n (Z.of_nat e) true verbose p os
  = Done (os +:+ String.concat " "
                   (slot_text KeyToString verbose <$> take n (drop e (array p)))).
Proof.
  intros Hlen. destruct n as [|n]; [simpl; by rewrite append_nil_r|].
  destruct (lookup_lt_is_Some_2 (array p) e) as [s Hs]; [lia|].
  cbn [ToString_loop]. rewrite (array_get_lookup _ _ _ Hs). simpl_result.
  replace (Z.of_nat e + 1) with (Z.of_nat (S e)) by lia.
  rewrite ToString_loop_rest by lia. rewrite (drop_S _ _ _ Hs).
  cbn [take fmap list_fmap]. rewrite concat_cons. f_equal.
  unfold slot_text. destruct verbose; by rewrite !append_assoc.
Qed.

(** X20: what [ToString] returns on a page whose live slots lie in the
    frame.  Without [verbose] it is the keys of the slots from index 1 on,
    separated by single spaces: the key of slot 0 and the children are not
    printed, and a page of size 1 prints as the empty string, like a page of
    size 0.  With [verbose] it is the empty string on a page of size 0, and
    otherwise the line of page id, parent id and size followed by every live
    slot, slot 0 included, as its key and its child in brackets. *)
Theorem ToString_spec (KeyToString : KeyType → string) (p : Page) :
  GetSize p ≤ Z.of_nat (length (array p)) →
  ToString KeyToString p false
  = Done (String.concat " " (KeyToString <$> (drop 1 (slots p)).*1))
  ∧ ToString KeyToString p true
    = Done (if GetSize p =? 0 then ""
            else "[pageId: " +:+ pretty (GetPageId p) +:+ " parentId: "
                 +:+ pretty (GetParentPageId p) +:+ "]<"
                 +:+ pretty (GetSize p) +:+ "> "
                 +:+ String.concat " "
                       ((λ s, KeyToString s.1 +:+ "(" +:+ pretty s.2 +:+ ")")
                          <$> slots p)).
Proof.
  intros Hcap. unfold ToString. split.
  - destruct (Z.eqb_spec (GetSize p) 0) as [H0|H0].
    { unfold slots. rewrite H0. done. }
    destruct (decide (GetSize p < 0)) as [Hneg|Hpos].
    { unfold slots.
      replace (Z.to_nat (GetSize p - 1)) with 0%nat by lia.
      by replace (Z.to_nat (GetSize p)) with 0%nat by lia. }
    rewrite (ToString_loop_all KeyToString false p _ 1) by lia.
    simpl. do 2 f_equal. unfold slots.
    rewrite <- list_fmap_compose.
    replace (Z.to_nat (GetSize p)) with (1 + Z.to_nat (GetSize p - 1))%nat
      by lia.
    by rewrite <- take_drop_commute.
  - destruct (Z.eqb_spec (GetSize p) 0) as [H0|H0]; [done|].
    rewrite (ToString_loop_all KeyToString true p _ 0) by lia.
    rewrite drop_0, Z.sub_0_r. fold (slots p).
    by rewrite !append_assoc.
Qed.

(** ** Initialising a page *)

(** X21: [Init] makes the page an internal page of size 1 with the given
    ids and writes no slot.  When the header fits in the page, the page size
    is an [int] and a slot has a positive size, the max size it sets is the
    largest number of slots that fit in the page after the header. *)
Theorem Init_max_size_fits (PAGE_SIZE sizeof_page_header sizeof_KeyType
    sizeof_ValueType : Z) (p : Page) (page_id parent_id : page_id_t) :
  0 < sizeof_KeyType + sizeof_ValueType < 2 ^ 64 →
  0 ≤ sizeof_page_header ≤ PAGE_SIZE →
  PAGE_SIZE ≤ 2 ^ 31 - 1 →
  let p' := Init PAGE_SIZE sizeof_page_header sizeof_KeyType sizeof_ValueType
              p page_id parent_id in
  0 ≤ GetMaxSize p' ≤ 2 ^ 31 - 1
  ∧ sizeof_page_header + GetMaxSize p' * (sizeof_KeyType + sizeof_ValueType)
    ≤ PAGE_SIZE
  ∧ PAGE_SIZE
    < sizeof_page_header
      + (GetMaxSize p' + 1) * (sizeof_KeyType + sizeof_ValueType)
  ∧ GetSize p' = 1 ∧ GetPageId p' = page_id ∧ GetParentPageId p' = parent_id
  ∧ IsLeafPage p' = false ∧ array p' = array p.
Proof.
  intros Hslot Hhdr Hint p'. unfold p', Init, GetMaxSize. simpl.
  unfold to_size_t, to_int.
  change (2 ^ 64) with 18446744073709551616 in *.
  change (2 ^ 32) with 4294967296.
  change (2 ^ 31) with 2147483648 in *.
  rewrite (Z.mod_small PAGE_SIZE) by lia.
  rewrite (Z.mod_small sizeof_page_header) by lia.
  rewrite (Z.mod_small (PAGE_SIZE - sizeof_page_header)) by lia.
  rewrite (Z.mod_small (sizeof_KeyType + sizeof_ValueType)) by lia.
  rewrite Z.quot_div_nonneg by lia.
  pose proof (Z.div_mod (PAGE_SIZE - sizeof_page_header)
                (sizeof_KeyType + sizeof_ValueType)).
  pose proof (Z.mod_pos_bound (PAGE_SIZE - sizeof_page_header)
                (sizeof_KeyType + sizeof_ValueType)).
  pose proof (Z.div_pos (PAGE_SIZE - sizeof_page_header)
                (sizeof_KeyType + sizeof_ValueType)).
  assert ((PAGE_SIZE - sizeof_page_header)
            / (sizeof_KeyType + sizeof_ValueType)
          ≤ PAGE_SIZE - sizeof_page_header)
    by (apply Z.div_le_upper_bound; nia).
  rewrite Z.mod_small by lia.
  repeat split; try done; nia.
Qed.

(** ** Giving the first slot to the left sibling *)

(** What [array[0] = array[1]; Remove(1)] leaves of a page with at least two
    live slots. *)
Lemma drop_first_slot (src : Page) (s1 : MappingType) :
  1 < GetSize src ≤ Z.of_nat (length (array src)) →
  array src !! 1%nat = Some s1 →
  ∃ src2 : Page,
    Remove (set_array src (<[0%nat := s1]> (array src))) 1 = Done src2
    ∧ GetSize src2 = GetSize src - 1
    ∧ slots src2 !! 0%nat = Some s1
    ∧ (2 < GetSize src → slots src2 !! 1%nat = slots src !! 2%nat)
    ∧ (∀ i : nat, (2 ≤ i)%nat → Z.of_nat i < GetSize src - 1 →
         slots src2 !! i = slots src !! i).
Proof.
  intros Hn Hs1. set (src1 := set_array src (<[0%nat := s1]> (array src))).
  assert (Hsz1 : GetSize src1 = GetSize src) by done.
  destruct (decide (GetSize src = 2)) as [H2|H2].
  - exists (IncreaseSize src1 (-1)).
    split; [apply Remove_last; [lia|rewrite Hsz1; lia]|].
    split; [done|]. split; [|split; [lia|lia]].
    apply slots_lookup. split; [simpl; unfold GetSize in *; lia|].
    simpl. apply list_lookup_insert_eq. lia.
  - destruct (lookup_lt_is_Some_2 (array src) 2) as [s2 Hs2]; [lia|].
    exists (IncreaseSize (set_array src1 (<[1%nat := s2]> (array src1))) (-1)).
    split.
    { apply (Remove_inner src1 1 s2); [rewrite Hsz1; lia|].
      simpl. by rewrite list_lookup_insert_ne. }
    split; [done|]. unfold slots. simpl. change (size_ src) with (GetSize src).
    split; [|split].
    + rewrite lookup_take_lt by lia.
      rewrite list_lookup_insert_ne by done.
      apply list_lookup_insert_eq. lia.
    + intros _. rewrite !lookup_take_lt by lia.
      rewrite list_lookup_insert_eq by (rewrite length_insert; lia). done.
    + intros i Hi Hlt. rewrite !lookup_take_lt by lia.
      by rewrite !list_lookup_insert_ne by lia.
Qed.

(** X22: what [MoveFirstToEndOf] does on every page with at least two live
    slots and a left sibling with room: the sibling receives the child of
    slot 1 of the page, not that of slot 0, under the parent's separator
    key, which becomes the key of slot 1; the page keeps one slot less, with
    the former slot 1 in slot 0.  The child of slot 0, when no other slot of
    the two siblings names it, is named by neither sibling afterwards. *)
Theorem MoveFirstToEndOf_actual (this recipient : page_id_t)
    (bpm : BufferPoolManager) (src dst par : Page) (index : Z)
    (s1 sp : MappingType) :
  this ≠ recipient →
  frames bpm !! this = Some src → frames bpm !! recipient = Some dst →
  GetParentPageId dst ≠ this → GetParentPageId dst ≠ recipient →
  frames bpm !! GetParentPageId dst = Some par →
  1 < GetSize src ≤ Z.of_nat (length (array src)) →
  array src !! 1%nat = Some s1 →
  GetSize dst + 1 < GetMaxSize dst →
  0 ≤ GetSize dst < Z.of_nat (length (array dst)) →
  ValueIndex par (GetPageId dst) = Done index →
  0 ≤ index + 1 < GetSize par →
  array par !! Z.to_nat (index + 1) = Some sp →
  ∃ (bpm' : BufferPoolManager) (src' dst' par' : Page),
    MoveFirstToEndOf this recipient bpm = Done (tt, bpm')
    ∧ frames bpm' !! this = Some src'
    ∧ frames bpm' !! recipient = Some dst'
    ∧ frames bpm' !! GetParentPageId dst = Some par'
    ∧ GetSize src' = GetSize src - 1
    ∧ slots src' !! 0%nat = Some s1
    ∧ (2 < GetSize src → slots src' !! 1%nat = slots src !! 2%nat)
    ∧ (∀ i : nat, (2 ≤ i)%nat → Z.of_nat i < GetSize src - 1 →
         slots src' !! i = slots src !! i)
    ∧ slots dst' = slots dst ++ [(sp.1, s1.2)]
    ∧ par' = set_array par (<[Z.to_nat (index + 1) := (s1.1, sp.2)]> (array par))
    ∧ ∀ s0 : MappingType,
        array src !! 0%nat = Some s0 →
        s0.2 ∉ (drop 1 (slots src)).*2 → s0.2 ∉ (slots dst).*2 →
        s0.2 ∉ (slots src').*2 ++ (slots dst').*2.
Proof.
  intros Hne Hsrc Hdst Hpt Hpr Hpar Hn Hs1 Hroom Hsize Hindex Hidx Hsp.
  set (src1 := set_array src (<[0%nat := s1]> (array src))).
  destruct (drop_first_slot src s1 Hn Hs1)
    as (src2 & Hrem & Hsz2 & Hz & Hone & Hrest). fold src1 in Hrem.
  set (bpm1 := mkBPM (<[this := src1]> (frames bpm)) (pins bpm) (trace bpm)).
  set (bpm2 := mkBPM (<[this := src2]> (frames bpm1)) (pins bpm1) (trace bpm1)).
  destruct (CopyLastFrom_run recipient s1 bpm2 dst par index sp)
    as (bpm' & dst' & par' & Hrun & Hf1 & Hf2 & Hsz & Hslots & Hpar' & Hother);
    [by frame_lookup|done|by frame_lookup|done..|].
  exists bpm', src2, dst', par'. split.
  - unfold MoveFirstToEndOf.
    run_step ltac:(apply (call_run _ _ _ src tt Hsrc); apply assert_Done; lia).
    run_step ltac:(apply (call_run _ _ _ src s1 Hsrc);
                   by apply array_get_at).
    run_step ltac:(apply (update_run _ _ _ src src1 Hsrc);
                   rewrite (array_get_at _ 1 s1) by (lia || done);
                   simpl_result; rewrite array_set_Done by lia; done).
    run_step ltac:(apply (update_run _ _ bpm1 src1 src2); [frame_lookup|done]).
    exact Hrun.
  - split; [rewrite Hother by done; frame_lookup|].
    do 2 (split; [done|]). do 4 (split; [done|]). do 2 (split; [done|]).
    intros s0 Hs0 Hsrc0 Hdst0.
    assert (Hsub : ∀ s, s ∈ slots src2 → s ∈ drop 1 (slots src)).
    { intros s (j & Hj)%list_elem_of_lookup.
      assert (Hjn : Z.of_nat j < GetSize src - 1).
      { apply slots_lookup in Hj as [Hj _]. lia. }
      destruct j as [|[|j]].
      - rewrite Hz in Hj. injection Hj as <-.
        apply (list_elem_of_lookup_2 _ 0). rewrite lookup_drop. simpl.
        apply slots_lookup. split; [lia|done].
      - rewrite Hone in Hj by lia.
        apply (list_elem_of_lookup_2 _ 1). by rewrite lookup_drop.
      - rewrite Hrest in Hj by lia.
        apply (list_elem_of_lookup_2 _ (S j)). by rewrite lookup_drop. }
    assert (Hin1 : s1 ∈ drop 1 (slots src)).
    { apply Hsub. by apply (list_elem_of_lookup_2 _ 0). }
    rewrite Hslots, fmap_app. simpl.
    intros [H|[H|H]%elem_of_app]%elem_of_app.
    + apply list_elem_of_fmap in H as (s & Heq & Hs).
      apply Hsrc0. apply list_elem_of_fmap. exists s. split; [done|by apply Hsub].
    + done.
    + apply list_elem_of_singleton in H.
      apply Hsrc0. apply list_elem_of_fmap. by exists s1.
Qed.

End Properties.

(** * The concrete pages and pools *)

Lemma int_comparator_order : ComparatorOrder int_comparator.
Proof.
  split; unfold int_comparator.
  - intros a b. destruct (Z.ltb_spec a b), (Z.ltb_spec b a); lia.
  - intros a b c.
    destruct (Z.ltb_spec a b), (Z.ltb_spec b a), (Z.ltb_spec b c),
      (Z.ltb_spec c b), (Z.ltb_spec a c), (Z.ltb_spec c a); lia.
Qed.

Lemma pool_of_consistent (pages : list (@BPlusTreeInternalPage Z)) :
  header_ids_consistent (pool_of pages).
Proof.
  intros id p H. simpl in H. apply elem_of_list_to_map_2 in H.
  apply list_elem_of_fmap in H as (q & [= -> ->] & _). done.
Qed.

Example scenario_page_slots :
  slots <$> (match scenario_page with Done p => Some p | Fault _ => None end)
  = Some [(0, 100); (10, 101); (20, 102); (30, 103)].
Proof. vm_compute. reflexivity. Qed.

Lemma scenario_final_slots :
  slots scenario_final = [(0, 100); (10, 101); (20, 102); (30, 103)].
Proof. vm_compute. reflexivity. Qed.

Lemma scenario_final_increasing : keys_increasing int_comparator scenario_final.
Proof.
  intros i j si sj Hij. rewrite scenario_final_slots.
  destruct i as [|[|[|[|i]]]]; destruct j as [|[|[|[|j]]]];
    try lia; simpl; intros; simplify_eq; by vm_compute.
Qed.

(** C1: on a page of size > 1 whose keys from index 1 on are strictly
    increasing, [Lookup] returns the child of slot 0 when the key is below the
    key of slot 1, the child of the last slot when the key is at or above the
    last key, and otherwise the child of the slot with the largest index whose
    key is at or below the key. On the page of the section 8 scenario,
    [Lookup 25] returns the child inserted with key 20. *)
Theorem Lookup_spec :
  (∀ (KeyType : Type) (comparator : KeyType → KeyType → Z)
     (p : @BPlusTreeInternalPage KeyType) (key : KeyType),
     ComparatorOrder comparator →
     1 < GetSize p ≤ Z.of_nat (length (array p)) →
     keys_increasing comparator p →
     (∀ s0 s1 : MappingType,
        slots p !! 0%nat = Some s0 → slots p !! 1%nat = Some s1 →
        key_lt comparator key s1.1 → Lookup comparator p key = Done s0.2)
     ∧ (∀ sl : MappingType,
        slots p !! Z.to_nat (GetSize p - 1) = Some sl →
        key_le comparator sl.1 key → Lookup comparator p key = Done sl.2)
     ∧ (∀ s1 sl : MappingType,
        slots p !! 1%nat = Some s1 →
        slots p !! Z.to_nat (GetSize p - 1) = Some sl →
        ¬ key_lt comparator key s1.1 → ¬ key_le comparator sl.1 key →
        ∃ (i : nat) (si : MappingType),
          (1 ≤ i)%nat ∧ slots p !! i = Some si ∧
          Lookup comparator p key = Done si.2 ∧
          key_le comparator si.1 key ∧
          ∀ (j : nat) (sj : MappingType),
            (i < j)%nat → slots p !! j = Some sj →
            ¬ key_le comparator sj.1 key))
  ∧ (∃ p : @BPlusTreeInternalPage Z,
       scenario_page = Done p ∧
       slots p = [(0, 100); (10, 101); (20, 102); (30, 103)] ∧
       GetMaxSize p = 4 ∧
       Lookup int_comparator p 25 = Done 102).
Proof.
  split.
  - intros KeyType comparator p key Horder Hsize Hsorted.
    by apply Lookup_correct.
  - exists scenario_final. by vm_compute.
Qed.

(** On the scenario page key 25 lies between the keys of slot 1 and of the
    last slot: the third case of the contract applies. *)
Lemma Lookup_spec_witness :
  ∃ (i : nat) (si : Z * Z),
    (1 ≤ i)%nat ∧ slots scenario_final !! i = Some si ∧
    Lookup int_comparator scenario_final 25 = Done si.2 ∧
    key_le int_comparator si.1 25 ∧
    ∀ (j : nat) (sj : Z * Z),
      (i < j)%nat → slots scenario_final !! j = Some sj →
      ¬ key_le int_comparator sj.1 25.
Proof.
  refine (proj2 (proj2 (proj1 Lookup_spec Z int_comparator scenario_final 25
                          int_comparator_order _ scenario_final_increasing))
            (10, 101) (30, 103) _ _ _ _).
  - vm_compute. split; [reflexivity | discriminate].
  - vm_compute. reflexivity.
  - vm_compute. reflexivity.
  - vm_compute. discriminate.
  - vm_compute. intros H. apply H. reflexivity.
Defined.

(** Inserting (20,102) after child 101 of the page with a gap shifts
    (30,103) to the right. *)
Lemma InsertNodeAfter_spec_witness :
  ∃ p' : @BPlusTreeInternalPage Z,
    InsertNodeAfter gap_page 101 20 102 = Done (GetSize gap_page + 1, p')
    ∧ GetSize p' = GetSize gap_page + 1
    ∧ slots p' = take 2 (slots gap_page) ++ (20, 102) :: drop 2 (slots gap_page)
    ∧ GetMaxSize p' = GetMaxSize gap_page ∧ GetPageId p' = GetPageId gap_page
    ∧ GetParentPageId p' = GetParentPageId gap_page.
Proof.
  apply (InsertNodeAfter_spec gap_page 101 20 102 1 (10, 101)).
  - vm_compute. reflexivity.
  - vm_compute. discriminate.
  - vm_compute. reflexivity.
  - reflexivity.
  - intros i s.
    destruct i as [|[|[|i]]]; vm_compute; intros; simplify_eq; reflexivity.
Defined.

(** A child that is present and one that is absent. *)
Lemma ValueIndex_spec_witness :
  ValueIndex gap_page 103 = Done 2 ∧ ValueIndex gap_page 555 = Done 3.
Proof.
  split.
  - refine (proj1 (ValueIndex_spec gap_page 103 _) 2%nat (30, 103) _ _ _).
    + vm_compute. discriminate.
    + vm_compute. reflexivity.
    + reflexivity.
    + intros j s' Hj. destruct j as [|[|j]]; [| |lia];
        vm_compute; intros; simplify_eq; discriminate.
  - refine (proj2 (ValueIndex_spec gap_page 555 _) _).
    + vm_compute. discriminate.
    + intros s Hs. apply list_elem_of_In in Hs.
      destruct Hs as [<-|[<-|[<-|[]]]]; discriminate.
Defined.

(** C3: [Remove 1] on the page with slots (_,100) (10,101) (20,102) (30,103)
    copies slot 2 over slot 1 and drops the last slot: the page ends with
    (20,102) twice and without (30,103), which is not the slot array with
    slot 1 deleted. *)
Theorem Remove_overwrites_without_shifting :
  ∃ p' : @BPlusTreeInternalPage Z,
    Remove four_slot_page 1 = Done p'
    ∧ GetSize p' = GetSize four_slot_page - 1
    ∧ slots p' = [(0, 100); (20, 102); (20, 102)]
    ∧ delete 1%nat (slots four_slot_page) = [(0, 100); (20, 102); (30, 103)]
    ∧ slots p' ≠ delete 1%nat (slots four_slot_page).
Proof. eexists. by vm_compute. Qed.


(** C5: splitting the four-slot page 2 into the fresh page 4 leaves page 2
    with its two lower slots and copies the two upper slots to slots 0 and 1
    of page 4, but page 4 ends with size 3 = 1 + floor(4/2), its third slot
    being stale frame content. *)
Theorem MoveHalfTo_recipient_size_off_by_one :
  MoveHalfTo 2 4 split_pool = Done (tt, split_pool_after)
  ∧ size_of split_pool 2 = Some 4 ∧ size_of split_pool 4 = Some 1
  ∧ size_of split_pool_after 2 = Some 2
  ∧ slots_of split_pool_after 2 = [(0, 10); (10, 11)]
  ∧ size_of split_pool_after 4 = Some 3
  ∧ slots_of split_pool_after 4 = [(20, 12); (30, 13); (-7, -7)].
Proof. by vm_compute. Qed.



(** C2: merging page 3 (slots (_,12) (30,13)) into page 2 (slots (_,10)
    (10,11)) raises the size of page 2 by one but copies nothing: the copy
    loop of [CopyAllFrom] runs from the recipient's size up to the number of
    items, here from 2 up to 1. Slot 2 of page 2 is stale frame content, not
    (30,13). The separator entry is removed from the parent. *)
Theorem MoveAllTo_copies_nothing :
  MoveAllTo 3 2 1 merge_pool = Done (tt, merge_pool_after)
  ∧ size_of merge_pool 2 = Some 2 ∧ size_of merge_pool 3 = Some 2
  ∧ size_of merge_pool_after 2 = Some 3
  ∧ slots_of merge_pool_after 2 = [(0, 10); (10, 11); (-7, -7)]
  ∧ slots_of merge_pool 2 ++ drop 1 (slots_of merge_pool 3)
    = [(0, 10); (10, 11); (30, 13)]
  ∧ slots_of merge_pool_after 2
    ≠ slots_of merge_pool 2 ++ drop 1 (slots_of merge_pool 3)
  ∧ slots_of merge_pool_after 1 = [(0, 2)].
Proof. by vm_compute. Qed.

(** C6: [MoveFirstToEndOf] from page 3 to page 2 moves one slot, rewrites
    the separator of page 3 in the parent to the former key of slot 1 and
    appends a slot carrying the former separator; but the child it appends is
    the one of slot 1, which also becomes the child of slot 0 of page 3, so
    child 12 is held by neither sibling afterwards and child 13 by both. *)
Theorem MoveFirstToEndOf_loses_first_child :
  MoveFirstToEndOf 3 2 redistribute_pool = Done (tt, redistribute_pool_after)
  ∧ size_of redistribute_pool 3 = Some 3
  ∧ size_of redistribute_pool_after 3 = Some 2
  ∧ size_of redistribute_pool 2 = Some 2
  ∧ size_of redistribute_pool_after 2 = Some 3
  ∧ slots_of redistribute_pool_after 1 = [(0, 2); (30, 3)]
  ∧ slots_of redistribute_pool_after 2 = [(0, 10); (10, 11); (20, 13)]
  ∧ slots_of redistribute_pool_after 3 = [(30, 13); (40, 14)]
  ∧ children_of redistribute_pool 2 ++ children_of redistribute_pool 3
    = [10; 11; 12; 13; 14]
  ∧ children_of redistribute_pool_after 2 ++ children_of redistribute_pool_after 3
    = [10; 11; 13; 13; 14]
  ∧ ¬ (children_of redistribute_pool_after 2 ++ children_of redistribute_pool_after 3
       ≡ₚ children_of redistribute_pool 2 ++ children_of redistribute_pool 3).
Proof.
  repeat split; try by vm_compute.
  intros Hperm.
  assert (12 ∈ children_of redistribute_pool_after 2
               ++ children_of redistribute_pool_after 3) as Hin.
  { rewrite Hperm. vm_compute. do 2 apply list_elem_of_further.
    apply list_elem_of_here. }
  vm_compute in Hin. apply list_elem_of_In in Hin.
  destruct Hin as [?|[?|[?|[?|[?|[]]]]]]; discriminate.
Qed.

Example copy_first_slots :
  slots_of copy_first_after 3 = [(0, 11); (20, 12); (30, 13); (40, 14)]
  ∧ slots_of copy_first_after 1 = [(0, 2); (10, 3)].
Proof. by vm_compute. Qed.

(** Three runs that return: the merge of page 3 into page 2, and a slot
    received by page 2 at its end and by page 3 at its front. *)
Lemma parent_pin_balanced_witness :
  parent_fetched_and_unpinned_once 3 merge_pool merge_pool_after
  ∧ parent_fetched_and_unpinned_once 2 redistribute_pool copy_last_after
  ∧ parent_fetched_and_unpinned_once 3 redistribute_pool copy_first_after.
Proof.
  split; [|split].
  - apply (proj1 (parent_pin_balanced merge_pool (pool_of_consistent _)) 3 2 1).
    vm_compute. reflexivity.
  - apply (proj1 (proj2 (parent_pin_balanced redistribute_pool
                           (pool_of_consistent _))) 2 (30, 13)).
    vm_compute. reflexivity.
  - apply (proj2 (proj2 (parent_pin_balanced redistribute_pool
                           (pool_of_consistent _))) 3 (10, 11) 1).
    vm_compute. reflexivity.
Defined.

(** No live slot of the page has child 999, and [InsertNodeAfter] with that
    child fails no assertion: it returns the size unchanged, having shifted
    the live slots and dropped the pair [(30, 103)] from them. *)
Lemma InsertNodeAfter_absent_child_not_rejected :
  (∀ s : Z * Z, s ∈ slots gap_page → s.2 ≠ 999)
  ∧ InsertNodeAfter gap_page 999 20 102
    = Done (3, set_array gap_page
                 [(0, 100); (0, 100); (10, 101); (30, 103)])
  ∧ ¬ absent_child_rejected gap_page 999 20 102.
Proof.
  assert (Hno : ∀ s : Z * Z, s ∈ slots gap_page → s.2 ≠ 999).
  { intros s Hs. apply list_elem_of_In in Hs.
    destruct Hs as [<-|[<-|[<-|[]]]]; discriminate. }
  split; [exact Hno|]. split; [by vm_compute|].
  intros H. specialize (H Hno). vm_compute in H. discriminate.
Qed.

(** * Further properties on the concrete pages and pools *)

(** The checks of a hypothesis that runs over the slots of a concrete
    page. *)
Ltac check_slots i :=
  destruct i as [|[|[|[|[|[|i]]]]]]; vm_compute; intros;
  simplify_eq; first [ lia | discriminate | reflexivity | done ].

(** The fresh page of the scenario becomes a root over children 100 and
    101. *)
Lemma PopulateNewRoot_spec_witness :
  ∃ p' : @BPlusTreeInternalPage Z,
    PopulateNewRoot scenario_fresh 100 10 101 = Done p'
    ∧ GetSize p' = 2
    ∧ slots p' = [(0, 100); (10, 101)]
    ∧ header p' = header scenario_fresh.
Proof.
  apply (PopulateNewRoot_spec scenario_fresh 100 10 101 (0, 100)).
  - reflexivity.
  - vm_compute. lia.
  - reflexivity.
Defined.

Lemma new_root_Lookup_witness :
  ∃ p' : @BPlusTreeInternalPage Z,
    PopulateNewRoot
      (Init 72 24 8 4
         (mkPage INVALID_INDEX_PAGE 0 0 0 0 [(0, 0); (0, 0); (0, 0); (0, 0)])
         1 INVALID_PAGE_ID) 100 10 101 = Done p'
    ∧ GetSize p' = 2 ∧ GetPageId p' = 1
    ∧ GetParentPageId p' = INVALID_PAGE_ID ∧ IsLeafPage p' = false
    ∧ ∀ key : Z,
        Lookup int_comparator p' key
        = Done (if int_comparator key 10 <? 0 then 100 else 101).
Proof.
  apply (new_root_Lookup int_comparator 72 24 8 4
           (mkPage INVALID_INDEX_PAGE 0 0 0 0 [(0, 0); (0, 0); (0, 0); (0, 0)])).
  vm_compute. lia.
Defined.

Lemma RemoveAndReturnOnlyChild_spec_witness :
  RemoveAndReturnOnlyChild
    (internal_page 1 INVALID_PAGE_ID 4 4 (0, 0) [(0, 100); (10, 101)])
  = Done (100, IncreaseSize
                 (internal_page 1 INVALID_PAGE_ID 4 4 (0, 0) [(0, 100); (10, 101)])
                 (-1)).
Proof.
  apply (proj2 (RemoveAndReturnOnlyChild_spec
                  (internal_page 1 INVALID_PAGE_ID 4 4 (0, 0)
                     [(0, 100); (10, 101)])) (0, 100)); reflexivity.
Defined.

Lemma PopulateNewRoot_RemoveAndReturnOnlyChild_witness :
  ∃ p'' : @BPlusTreeInternalPage Z,
    RemoveAndReturnOnlyChild
      (internal_page 1 INVALID_PAGE_ID 4 4 (0, 0) [(0, 100); (10, 101)])
    = Done (100, p'')
    ∧ GetSize p'' = 1 ∧ (slots p'').*2 = [100]
    ∧ header p'' = header scenario_fresh.
Proof.
  apply (PopulateNewRoot_RemoveAndReturnOnlyChild scenario_fresh _ 100 10 101).
  vm_compute. reflexivity.
Defined.

Lemma SetKeyAt_KeyAt_witness :
  KeyAt (set_array gap_page [(0, 100); (15, 101); (30, 103); (0, 0)]) 1 = Done 15
  ∧ (∀ j, j ≠ 1 →
       KeyAt (set_array gap_page [(0, 100); (15, 101); (30, 103); (0, 0)]) j
       = KeyAt gap_page j)
  ∧ (∀ j, ValueAt (set_array gap_page [(0, 100); (15, 101); (30, 103); (0, 0)]) j
          = ValueAt gap_page j)
  ∧ GetSize (set_array gap_page [(0, 100); (15, 101); (30, 103); (0, 0)])
    = GetSize gap_page.
Proof.
  apply (SetKeyAt_KeyAt gap_page _ 1 15). vm_compute. reflexivity.
Defined.

Lemma InsertNodeAfter_absent_witness :
  ∃ p' : @BPlusTreeInternalPage Z,
    InsertNodeAfter gap_page 999 20 102 = Done (GetSize gap_page, p')
    ∧ GetSize p' = GetSize gap_page
    ∧ slots p' = (0, 100) :: take (Z.to_nat (GetSize gap_page) - 1) (slots gap_page)
    ∧ header p' = header gap_page.
Proof.
  apply (InsertNodeAfter_absent gap_page 999 20 102 (0, 100)).
  - vm_compute. split; reflexivity.
  - reflexivity.
  - intros s Hs. apply list_elem_of_In in Hs.
    destruct Hs as [<-|[<-|[<-|[]]]]; discriminate.
Defined.

Lemma InsertNodeAfter_last_match_witness :
  ∃ p' : @BPlusTreeInternalPage Z,
    InsertNodeAfter twin_child_page 101 30 103
    = Done (GetSize twin_child_page + 1, p')
    ∧ GetSize p' = GetSize twin_child_page + 1
    ∧ slots p' = take 3 (slots twin_child_page)
                 ++ (30, 103) :: drop 3 (slots twin_child_page).
Proof.
  apply (InsertNodeAfter_last_match twin_child_page 101 30 103 2 (20, 101)).
  - vm_compute. reflexivity.
  - reflexivity.
  - reflexivity.
  - intros i s Hi. check_slots i.
Defined.

Lemma ValueIndex_ValueAt_witness :
  (2 = GetSize gap_page ∧ ∀ s : Z * Z, s ∈ slots gap_page → s.2 ≠ 103)
  ∨ (0 ≤ 2 < GetSize gap_page ∧ ValueAt gap_page 2 = Done 103
     ∧ ∀ j, 0 ≤ j < 2 → ValueAt gap_page j ≠ Done 103).
Proof.
  apply (ValueIndex_ValueAt gap_page 103 2). vm_compute. reflexivity.
Defined.

Lemma Remove_actual_witness :
  ∃ p' : @BPlusTreeInternalPage Z,
    Remove four_slot_page 1 = Done p'
    ∧ GetSize p' = GetSize four_slot_page - 1
    ∧ header p' = header four_slot_page
    ∧ (∀ i : nat, i ≠ 1%nat → Z.of_nat i < GetSize four_slot_page - 1 →
         slots p' !! i = slots four_slot_page !! i)
    ∧ (Z.of_nat 1 + 1 < GetSize four_slot_page →
       slots p' !! 1%nat = slots four_slot_page !! 2%nat).
Proof.
  apply (Remove_actual four_slot_page 1).
  - vm_compute. discriminate.
  - vm_compute. reflexivity.
Defined.

Lemma Lookup_returns_live_child_witness :
  ∃ (i : nat) (s : Z * Z),
    slots unordered_page !! i = Some s
    ∧ Lookup int_comparator unordered_page 12 = Done s.2.
Proof.
  apply (Lookup_returns_live_child int_comparator unordered_page 12).
  vm_compute. split; [reflexivity|discriminate].
Defined.

Lemma Lookup_present_key_witness :
  Lookup int_comparator scenario_final 20 = Done 102.
Proof.
  apply (Lookup_present_key int_comparator scenario_final 2 (20, 102)
           int_comparator_order).
  - vm_compute. split; [reflexivity|discriminate].
  - apply scenario_final_increasing.
  - lia.
  - reflexivity.
Defined.

Lemma gap_page_increasing : keys_increasing int_comparator gap_page.
Proof.
  intros i j si sj Hij.
  destruct i as [|[|[|i]]]; destruct j as [|[|[|j]]];
    try lia; vm_compute; intros; simplify_eq; reflexivity.
Qed.

Lemma InsertNodeAfter_Lookup_witness :
  ∃ p' : @BPlusTreeInternalPage Z,
    InsertNodeAfter gap_page 101 20 102 = Done (GetSize gap_page + 1, p')
    ∧ keys_increasing int_comparator p'
    ∧ Lookup int_comparator p' 20 = Done 102.
Proof.
  apply (InsertNodeAfter_Lookup int_comparator gap_page 101 20 102 1 (10, 101)
           int_comparator_order).
  - vm_compute. split; reflexivity.
  - apply gap_page_increasing.
  - reflexivity.
  - reflexivity.
  - intros i s Hi. check_slots i.
  - intros _. reflexivity.
  - intros s [= <-]. reflexivity.
Defined.

(** The three children of page 3 are queued and pinned. *)
Lemma QueueUpChildren_pins_children_witness :
  ∃ bpm' : @BufferPoolManager Z,
    @QueueUpChildren Z 3 [] redistribute_pool = Done (([12; 13; 14], None), bpm')
    ∧ frames bpm' = frames redistribute_pool
    ∧ trace bpm' = [EvFetchPage 12; EvFetchPage 13; EvFetchPage 14]
    ∧ pin_count bpm' 13 = 1 ∧ pin_count bpm' 10 = 0.
Proof.
  destruct (QueueUpChildren_pins_children 3 (page_of redistribute_pool 3)
              redistribute_pool [])
    as (bpm' & Hrun & Hframes & Htrace & Hpins).
  - vm_compute. reflexivity.
  - vm_compute. discriminate.
  - intros c Hc. apply list_elem_of_In in Hc.
    destruct Hc as [<-|[<-|[<-|[]]]]; vm_compute; eauto.
  - exists bpm'. split; [exact Hrun|]. split; [exact Hframes|].
    split; [exact Htrace|]. rewrite !Hpins. split; reflexivity.
Defined.

(** Page 3 is missing: the walk over the children of page 1 stops at slot 1
    with page 2 queued and pinned, and never reaches page 4. *)
Lemma QueueUpChildren_missing_child_witness :
  ∃ bpm' : @BufferPoolManager Z,
    @QueueUpChildren Z 1 [] missing_child_pool
    = Done (([2], Some EXCEPTION_TYPE_INDEX_all_pinned), bpm')
    ∧ frames bpm' = frames missing_child_pool
    ∧ trace bpm' = [EvFetchPage 2; EvFetchPage 3]
    ∧ pin_count bpm' 2 = 1 ∧ pin_count bpm' 4 = 0.
Proof.
  destruct (QueueUpChildren_missing_child 1 (page_of missing_child_pool 1)
              missing_child_pool [] 1 (20, 3))
    as (bpm' & Hrun & Hframes & Htrace & Hpins).
  - vm_compute. reflexivity.
  - reflexivity.
  - vm_compute. reflexivity.
  - intros c Hc. apply list_elem_of_In in Hc.
    destruct Hc as [<-|[]]; vm_compute; eauto.
  - exists bpm'. split; [exact Hrun|]. split; [exact Hframes|].
    split; [exact Htrace|]. rewrite !Hpins. split; reflexivity.
Defined.

(** Page 2 receives the pair [(30, 13)] at its end. *)
Lemma CopyLastFrom_spec_witness :
  ∃ (bpm' : @BufferPoolManager Z) (dst' par' : @BPlusTreeInternalPage Z),
    CopyLastFrom 2 (30, 13) redistribute_pool = Done (tt, bpm')
    ∧ frames bpm' !! 2 = Some dst'
    ∧ frames bpm' !! 1 = Some par'
    ∧ GetSize dst' = 3
    ∧ slots dst' = [(0, 10); (10, 11); (20, 13)]
    ∧ slots par' = [(0, 2); (30, 3)].
Proof.
  destruct (CopyLastFrom_spec 2 (30, 13) redistribute_pool
              (page_of redistribute_pool 2) (page_of redistribute_pool 1)
              0 (20, 3))
    as (bpm' & dst' & par' & Hrun & Hd & Hp & Hsz & Hsl & Hpar & _).
  - vm_compute. reflexivity.
  - vm_compute. discriminate.
  - vm_compute. reflexivity.
  - vm_compute. reflexivity.
  - vm_compute. split; [discriminate|reflexivity].
  - vm_compute. reflexivity.
  - vm_compute. split; [discriminate|reflexivity].
  - reflexivity.
  - exists bpm', dst', par'. split; [exact Hrun|]. split; [exact Hd|].
    split; [exact Hp|]. split; [exact Hsz|]. split; [exact Hsl|].
    rewrite Hpar. reflexivity.
Defined.

(** Page 3 receives the pair [(10, 11)] at its front. *)
Lemma CopyFirstFrom_spec_witness :
  ∃ (bpm' : @BufferPoolManager Z) (dst' par' : @BPlusTreeInternalPage Z),
    CopyFirstFrom 3 (10, 11) 1 redistribute_pool = Done (tt, bpm')
    ∧ frames bpm' !! 3 = Some dst'
    ∧ frames bpm' !! 1 = Some par'
    ∧ GetSize dst' = 4
    ∧ slots dst' = [(0, 11); (20, 12); (30, 13); (40, 14)]
    ∧ slots par' = [(0, 2); (10, 3)].
Proof.
  destruct (CopyFirstFrom_spec 3 (10, 11) 1 redistribute_pool
              (page_of redistribute_pool 3) (page_of redistribute_pool 1)
              (0, 12) (20, 3))
    as (bpm' & dst' & par' & Hrun & Hd & Hp & Hsz & Hsl & Hpar & _).
  - vm_compute. reflexivity.
  - vm_compute. discriminate.
  - vm_compute. reflexivity.
  - vm_compute. reflexivity.
  - vm_compute. split; reflexivity.
  - reflexivity.
  - intros i s Hi. check_slots i.
  - vm_compute. split; [discriminate|reflexivity].
  - reflexivity.
  - exists bpm', dst', par'. split; [exact Hrun|]. split; [exact Hd|].
    split; [exact Hp|]. split; [exact Hsz|]. split; [exact Hsl|].
    rewrite Hpar. reflexivity.
Defined.

(** Page 2 gives its last slot, [(10, 11)], to its right sibling: the
    children of the two pages stay 10, 11, 12, 13, 14 from left to right. *)
Lemma MoveLastToFrontOf_spec_witness :
  ∃ (bpm' : @BufferPoolManager Z) (src' dst' par' : @BPlusTreeInternalPage Z),
    MoveLastToFrontOf 2 3 1 redistribute_pool = Done (tt, bpm')
    ∧ frames bpm' !! 2 = Some src'
    ∧ frames bpm' !! 3 = Some dst'
    ∧ frames bpm' !! 1 = Some par'
    ∧ slots src' = [(0, 10)]
    ∧ slots dst' = [(0, 11); (20, 12); (30, 13); (40, 14)]
    ∧ slots par' = [(0, 2); (10, 3)]
    ∧ (slots src').*2 ++ (slots dst').*2 = [10; 11; 12; 13; 14].
Proof.
  destruct (MoveLastToFrontOf_spec 2 3 1 redistribute_pool
              (page_of redistribute_pool 2) (page_of redistribute_pool 3)
              (page_of redistribute_pool 1) (10, 11) (0, 12) (20, 3))
    as (bpm' & src' & dst' & par' & Hrun & Hs & Hd & Hp & _ & Hsl & Hdl
        & Hpar & Hch).
  - discriminate.
  - vm_compute. reflexivity.
  - vm_compute. reflexivity.
  - vm_compute. discriminate.
  - vm_compute. discriminate.
  - vm_compute. reflexivity.
  - vm_compute. reflexivity.
  - reflexivity.
  - vm_compute. reflexivity.
  - vm_compute. split; reflexivity.
  - reflexivity.
  - intros i s Hi. check_slots i.
  - vm_compute. split; [discriminate|reflexivity].
  - reflexivity.
  - exists bpm', src', dst', par'. split; [exact Hrun|]. split; [exact Hs|].
    split; [exact Hd|]. split; [exact Hp|]. split; [exact Hsl|].
    split; [exact Hdl|]. split; [rewrite Hpar; reflexivity|exact Hch].
Defined.

(** The two redistributions between pages 2 and 3. *)
Lemma movers_pin_balanced_witness :
  parent_fetched_and_unpinned_once 2 redistribute_pool redistribute_pool_after
  ∧ parent_fetched_and_unpinned_once 3 redistribute_pool borrow_pool_after.
Proof.
  split.
  - apply (proj1 (movers_pin_balanced redistribute_pool (pool_of_consistent _))
             3 2).
    vm_compute. reflexivity.
  - apply (proj2 (movers_pin_balanced redistribute_pool (pool_of_consistent _))
             2 3 1).
    vm_compute. reflexivity.
Defined.

(** Page 3, with four slots of which three are passed, is merged into
    page 2, which has one: the first two of the three are copied and the
    third, [(50, 15)], is not, while the size becomes 4. *)
Lemma CopyAllFrom_actual_witness :
  ∃ (bpm' : @BufferPoolManager Z) (dst' : @BPlusTreeInternalPage Z),
    CopyAllFrom 2 (3, 1) 3 uneven_merge_pool = Done (tt, bpm')
    ∧ frames bpm' !! 2 = Some dst'
    ∧ GetSize dst' = 4
    ∧ slots dst' = [(0, 10); (30, 13); (40, 14); (-7, -7)].
Proof.
  destruct (CopyAllFrom_actual 2 3 1 3 uneven_merge_pool
              (page_of uneven_merge_pool 2) (page_of uneven_merge_pool 3))
    as (bpm' & dst' & Hrun & Hd & Hsz & Harr & _).
  - discriminate.
  - vm_compute. reflexivity.
  - vm_compute. reflexivity.
  - vm_compute. reflexivity.
  - vm_compute. split; discriminate.
  - vm_compute. discriminate.
  - vm_compute. lia.
  - exists bpm', dst'. split; [exact Hrun|]. split; [exact Hd|].
    split; [exact Hsz|]. unfold slots. rewrite Hsz, Harr. reflexivity.
Defined.

(** The page of the scenario in both forms; the keys are integers printed in
    decimal. *)
Lemma ToString_spec_witness :
  ToString pretty scenario_final false = Done "10 20 30"
  ∧ ToString pretty scenario_final true
    = Done "[pageId: 1 parentId: -1]<4> 0(100) 10(101) 20(102) 30(103)".
Proof.
  destruct (ToString_spec pretty scenario_final) as [H1 H2].
  - vm_compute. discriminate.
  - split; [rewrite H1|rewrite H2]; vm_compute; reflexivity.
Defined.

(** A page of 72 bytes with a header of 24, keys of 8 and children of 4
    bytes has room for 4 slots. *)
Lemma Init_max_size_fits_witness :
  0 ≤ GetMaxSize scenario_fresh ≤ 2 ^ 31 - 1
  ∧ 24 + GetMaxSize scenario_fresh * (8 + 4) ≤ 72
  ∧ 72 < 24 + (GetMaxSize scenario_fresh + 1) * (8 + 4)
  ∧ GetSize scenario_fresh = 1 ∧ GetPageId scenario_fresh = 1
  ∧ GetParentPageId scenario_fresh = INVALID_PAGE_ID
  ∧ IsLeafPage scenario_fresh = false
  ∧ array scenario_fresh = [(0, 100); (0, 0); (0, 0); (0, 0)].
Proof.
  apply (Init_max_size_fits 72 24 8 4
           (mkPage INVALID_INDEX_PAGE 0 0 0 0
              [(0, 100); (0, 0); (0, 0); (0, 0)]) 1 INVALID_PAGE_ID); lia.
Defined.

(** Page 3 gives a slot to its left sibling, page 2: child 13 goes over,
    child 12 is named by neither page afterwards. *)
Lemma MoveFirstToEndOf_actual_witness :
  ∃ (bpm' : @BufferPoolManager Z) (src' dst' : @BPlusTreeInternalPage Z),
    MoveFirstToEndOf 3 2 redistribute_pool = Done (tt, bpm')
    ∧ frames bpm' !! 3 = Some src'
    ∧ frames bpm' !! 2 = Some dst'
    ∧ GetSize src' = 2
    ∧ slots src' !! 0%nat = Some (30, 13)
    ∧ slots src' !! 1%nat = Some (40, 14)
    ∧ slots dst' = [(0, 10); (10, 11); (20, 13)]
    ∧ 12 ∉ (slots src').*2 ++ (slots dst').*2.
Proof.
  destruct (MoveFirstToEndOf_actual 3 2 redistribute_pool
              (page_of redistribute_pool 3) (page_of redistribute_pool 2)
              (page_of redistribute_pool 1) 0 (30, 13) (20, 3))
    as (bpm' & src' & dst' & par' & Hrun & Hs & Hd & _ & Hsz & H0 & H1 & _
        & Hdl & _ & Hlost).
  - discriminate.
  - vm_compute. reflexivity.
  - vm_compute. reflexivity.
  - vm_compute. discriminate.
  - vm_compute. discriminate.
  - vm_compute. reflexivity.
  - vm_compute. split; [reflexivity|discriminate].
  - reflexivity.
  - vm_compute. reflexivity.
  - vm_compute. split; [discriminate|reflexivity].
  - vm_compute. reflexivity.
  - vm_compute. split; [discriminate|reflexivity].
  - reflexivity.
  - exists bpm', src', dst'. split; [exact Hrun|]. split; [exact Hs|].
    split; [exact Hd|]. split; [exact Hsz|]. split; [exact H0|].
    split; [apply H1; vm_compute; reflexivity|]. split; [exact Hdl|].
    apply (Hlost (0, 12)).
    + reflexivity.
    + intros H%list_elem_of_In. vm_compute in H. intuition lia.
    + intros H%list_elem_of_In. vm_compute in H. intuition lia.
Defined.
